(** * Decoding core of [main.py]: top-k / nucleus filtering and the
      generation loop.

    The tensors of the program are modelled as lists.  A logit is a real
    number or the sentinel [-inf] written by the filter; finite values are
    rationals and the arithmetic is exact, so that every definition below
    evaluates.  Rounding, NaN and [+inf] are outside the embedding.

    The operations of the tensor library that the program calls ([topk],
    [sort], [softmax], [cumsum], boolean-mask and index assignment) are
    written out on lists under the names the program uses.  Three things
    the program takes from outside are parameters:
    - the exponential inside [softmax], of which the properties use only
      that it is positive;
    - the model, a function from the window of token ids to one real score
      per vocabulary entry;
    - the random draw of [torch.multinomial], of which the properties use
      only that it returns a category of positive probability.
    The sections on [top_k_top_p_filtering] and [generate] evaluate: there
    [torch.sort] keeps tied entries in index order and the arithmetic is
    exact.  The library fixes neither the order of ties nor the rounding,
    so the module [Torch] restates the filter over what the library does
    promise of [sort], [softmax] and [cumsum], and the properties of the
    nucleus that depend on either are proved there, for every sort and
    every arithmetic within that contract. *)

From Stdlib Require Import Ascii String DecimalString.
From Stdlib Require Import List ZArith QArith Lia Lqa Bool Arith.
From Stdlib Require Import Permutation Sorted Morphisms.
Import ListNotations.

Set Implicit Arguments.

(** ** Logits *)

Inductive logit : Type :=
| NegInf
| Fin (q : Q).

Module Logit.

(** [a < b] on logits, [-inf] below every finite value. *)
Definition ltb (a b : logit) : bool :=
  match a, b with
  | _, NegInf => false
  | NegInf, Fin _ => true
  | Fin x, Fin y => negb (Qle_bool y x)
  end.

(** Numeric equality. *)
Definition eqb (a b : logit) : bool :=
  match a, b with
  | NegInf, NegInf => true
  | Fin x, Fin y => Qeq_bool x y
  | _, _ => false
  end.

Definition leb (a b : logit) : bool := negb (ltb b a).

Definition is_fin (a : logit) : bool :=
  match a with NegInf => false | Fin _ => true end.

End Logit.

(** ** Tensor operations on lists *)

Module Tensor.

(** [t[i] = v] for an index in range. *)
Fixpoint set_nth {A} (i : nat) (v : A) (l : list A) : list A :=
  match l, i with
  | [], _ => []
  | _ :: t, O => v :: t
  | x :: t, S j => x :: set_nth j v t
  end.

(** [t[mask] = v] for a boolean mask of the same shape. *)
Fixpoint masked_fill {A} (l : list A) (mask : list bool) (v : A) : list A :=
  match l, mask with
  | x :: t, b :: m => (if b then v else x) :: masked_fill t m v
  | _, _ => l
  end.

(** [t[mask]]: the entries selected by a boolean mask. *)
Fixpoint masked_select {A} (l : list A) (mask : list bool) : list A :=
  match l, mask with
  | x :: t, b :: m =>
      if b then x :: masked_select t m else masked_select t m
  | _, _ => []
  end.

(** [t[idx] = v] for a tensor of indices, all in range. *)
Definition index_fill {A} (l : list A) (idx : list nat) (v : A) : list A :=
  fold_left (fun acc i => set_nth i v acc) idx l.

(** Descending insertion of an (value, index) pair; an entry that was
    met earlier stays in front of the entries it ties with. *)
Fixpoint insert_desc (x : logit * nat) (l : list (logit * nat))
  : list (logit * nat) :=
  match l with
  | [] => [x]
  | y :: t =>
      if Logit.ltb (fst x) (fst y) then y :: insert_desc x t
      else x :: y :: t
  end.

Definition sort_pairs (l : list (logit * nat)) : list (logit * nat) :=
  fold_right insert_desc [] l.

Definition enumerate (l : list logit) : list (logit * nat) :=
  combine l (seq 0 (length l)).

(** [torch.sort(t, descending=True)]: the sorted values and, for each,
    the index it came from.  Ties keep their index order. *)
Definition sort_desc (l : list logit) : list logit * list nat :=
  let s := sort_pairs (enumerate l) in (map fst s, map snd s).

(** [torch.topk(t, k)[0]]: the [k] largest values, largest first. *)
Definition topk_values (l : list logit) (k : nat) : list logit :=
  firstn k (fst (sort_desc l)).

Definition sumQ (l : list Q) : Q := fold_right Qplus 0 l.

(** [torch.cumsum]. *)
Fixpoint cumsum_from (acc : Q) (l : list Q) : list Q :=
  match l with
  | [] => []
  | x :: t => (acc + x) :: cumsum_from (acc + x) t
  end.

Definition cumsum (l : list Q) : list Q := cumsum_from 0 l.

Section Softmax.

(** The exponential of the tensor library, on finite logits. *)
Variable expw : Q -> Q.

Definition weight (a : logit) : Q :=
  match a with NegInf => 0 | Fin q => expw q end.

(** [F.softmax].  When every entry is [-inf] the library yields NaN in
    every position; here the quotient by a zero total is [0].  The
    program only compares the cumulative sums with a positive [top_p]
    ([NaN > top_p] and [0 > top_p] are both false) and hands the vector
    to [multinomial], which rejects both. *)
Definition softmax (l : list logit) : list Q :=
  let ws := map weight l in
  let total := sumQ ws in
  map (fun w => w / total) ws.

End Softmax.

End Tensor.

Import Tensor.

(** ** [top_k_top_p_filtering] *)

Inductive exn : Type :=
| IndexError
| RuntimeError.

Inductive result (A : Type) : Type :=
| Ok (a : A)
| Raise (e : exn).

Arguments Ok {A} a.
Arguments Raise {A} e.

Definition Qltb (a b : Q) : bool := negb (Qle_bool b a).

Section Filter.

Variable expw : Q -> Q.

(** Lines 21-25: the top-k branch. *)
Definition top_k_step (logits : list logit) (top_k : Z) (filter_value : logit)
  : list logit :=
  let top_k := Z.min top_k (Z.of_nat (length logits)) in
  if (0 <? top_k)%Z then
    let threshold :=
      last (topk_values logits (Z.to_nat top_k)) NegInf in
    let indices_to_remove :=
      map (fun v => Logit.ltb v threshold) logits in
    masked_fill logits indices_to_remove filter_value
  else logits.

(** Lines 27-38: the nucleus branch.  The assignment to position 0 of the
    shifted mask is out of bounds on an empty tensor. *)
Definition top_p_step (logits : list logit) (top_p : Q) (filter_value : logit)
  : result (list logit) :=
  if Qltb 0 top_p then
    let '(sorted_logits, sorted_indices) := sort_desc logits in
    let cumulative_probs := cumsum (softmax expw sorted_logits) in
    let sorted_indices_to_remove :=
      map (fun c => Qltb top_p c) cumulative_probs in
    match sorted_indices_to_remove with
    | [] => Raise IndexError
    | _ :: _ =>
        let sorted_indices_to_remove :=
          false :: removelast sorted_indices_to_remove in
        let indices_to_remove :=
          masked_select sorted_indices sorted_indices_to_remove in
        Ok (index_fill logits indices_to_remove filter_value)
    end
  else Ok logits.

(** Lines 9-39.  The program overwrites [logits] in place and returns the
    same tensor; the embedding returns its new contents. *)
Definition top_k_top_p_filtering
  (logits : list logit) (top_k : Z) (top_p : Q) (filter_value : logit)
  : result (list logit) :=
  top_p_step (top_k_step logits top_k filter_value) top_p filter_value.

End Filter.

(** ** [generate] *)

Definition token := nat.

(** [l[start:]] with Python's slice rules: a negative [start] counts from
    the end, and a start beyond either end is clipped. *)
Definition py_slice_from {A} (l : list A) (start : Z) : list A :=
  if (start <? 0)%Z then skipn (length l - Z.to_nat (- start)) l
  else skipn (Z.to_nat start) l.

(** [t[idx]] for a tensor of indices: the gathered values, or
    [IndexError] when an index is out of range. *)
Fixpoint index_select {A} (l : list A) (idx : list nat) : result (list A) :=
  match idx with
  | [] => Ok []
  | i :: rest =>
      match nth_error l i, index_select l rest with
      | Some v, Ok vs => Ok (v :: vs)
      | _, _ => Raise IndexError
      end
  end.

(** [t[idx] = vals] for a tensor of indices in range and as many values. *)
Fixpoint index_put {A} (l : list A) (idx : list nat) (vals : list A) : list A :=
  match idx, vals with
  | i :: idx', v :: vals' => index_put (set_nth i v l) idx' vals'
  | _, _ => l
  end.

(** Lines 52-53.  [generated] is a tensor of shape (1, m): iterating it
    yields its single row, so [set(generated)] has one element and the
    body runs once with [id] the row of all token ids.  The augmented
    assignment on an index tensor gathers [next_token_logits[id]], divides
    the gathered copy, and writes it back through the same indices. *)
Definition apply_repetition_penalty
  (next_token_logits : list Q) (generated : list token) (repitition_penalty : Q)
  : result (list Q) :=
  match index_select next_token_logits generated with
  | Ok vals =>
      Ok (index_put next_token_logits generated
            (map (fun v => v / repitition_penalty) vals))
  | Raise e => Raise e
  end.

(** Line 55: [next_token_logits[unk] = -inf]. *)
Definition suppress (next_token_logits : list Q) (unk : token)
  : result (list logit) :=
  if unk <? length next_token_logits
  then Ok (set_nth unk NegInf (map Fin next_token_logits))
  else Raise IndexError.

Section Decoder.

Variable expw : Q -> Q.
(** The model, read at [outputs[0][0, -1, :]]: real scores, one per
    vocabulary entry. *)
Variable model : list token -> list Q.
(** The generator of the tensor library and [torch.multinomial(probs, 1)],
    which fails on a vector it cannot sample from. *)
Variable rng : Type.
Variable multinomial : list Q -> rng -> option (nat * rng).
(** [tokenizer.convert_tokens_to_ids('[UNK]')]. *)
Variable unk : token.

(** The state threaded through a run: the generator, and the contexts
    the model has been called on so far. *)
Record state : Type := mkState { gen : rng; queries : list (list token) }.

Definition M (A : Type) : Type := state -> result (A * state).

Definition ret {A} (a : A) : M A := fun s => Ok (a, s).

Definition bind {A B} (m : M A) (f : A -> M B) : M B :=
  fun s => match m s with
           | Ok (a, s') => f a s'
           | Raise e => Raise e
           end.

Definition lift {A} (r : result A) : M A :=
  fun s => match r with Ok a => Ok (a, s) | Raise e => Raise e end.

Notation "x <- m ;; f" := (bind m (fun x => f))
  (at level 61, m at next level, right associativity).

Definition call_model (input_ids : list token) : M (list Q) :=
  fun s => Ok (model input_ids,
               mkState (gen s) (queries s ++ [input_ids])).

Definition sample (probs : list Q) : M token :=
  fun s => match multinomial probs (gen s) with
           | Some (next_token, g) => Ok (next_token, mkState g (queries s))
           | None => Raise RuntimeError
           end.

Section Loop.

Variables (n_ctx : Z) (temperature : Q) (top_k : Z) (top_p : Q)
          (repitition_penalty : Q).

(** Lines 49-58: one iteration.  The divisions are the real ones, so
    the embedding covers a non-zero [temperature] and
    [repitition_penalty]. *)
Definition step (generated : list token) : M (list token) :=
  next_token_logits <-
    call_model (py_slice_from generated (- (n_ctx - 1))) ;;
  next_token_logits <-
    lift (apply_repetition_penalty next_token_logits generated
            repitition_penalty) ;;
  next_token_logits <-
    ret (map (fun v => v / temperature) next_token_logits) ;;
  next_token_logits <- lift (suppress next_token_logits unk) ;;
  filtered_logits <-
    lift (top_k_top_p_filtering expw next_token_logits top_k top_p NegInf) ;;
  next_token <- sample (softmax expw filtered_logits) ;;
  ret (generated ++ [next_token]).

Fixpoint loop (n : nat) (generated : list token) : M (list token) :=
  match n with
  | O => ret generated
  | S n' => generated <- step generated ;; loop n' generated
  end.

End Loop.

Definition generate (context : list token) (length : Z) (n_ctx : Z)
  (temperature : Q) (top_k : Z) (top_p : Q) (repitition_penalty : Q)
  : M (list token) :=
  loop n_ctx temperature top_k top_p repitition_penalty
    (Z.to_nat length) context.

End Decoder.

(** ** A concrete instance, for evaluating the definitions *)

Module Demo.

(** A positive rational stand-in for the exponential. *)
Definition expw (q : Q) : Q :=
  if Qle_bool 0 q then 1 + q + q * q * (1 # 2)
  else / (1 - q + q * q * (1 # 2)).

(** A sampler that draws the first category of positive probability. *)
Fixpoint first_positive (probs : list Q) (i : nat) : option nat :=
  match probs with
  | [] => None
  | p :: t => if Qltb 0 p then Some i else first_positive t (S i)
  end.

Definition multinomial (probs : list Q) (g : unit) : option (nat * unit) :=
  match first_positive probs 0 with
  | Some i => Some (i, g)
  | None => None
  end.

(** A model over a vocabulary of [v] entries that scores entry [i] by
    [i] minus the length of its input. *)
Definition model (v : nat) (input_ids : list token) : list Q :=
  map (fun i => inject_Z (Z.of_nat i) - inject_Z (Z.of_nat (length input_ids)))
      (seq 0 v).

Definition s0 : state unit := mkState tt [].

End Demo.

(** ** Vocabulary of the properties *)

Definition countb {A : Type} (f : A -> bool) (l : list A) : nat :=
  length (filter f l).

(** [desc a b]: [a] may stand before [b] in a descending list. *)
Definition desc (a b : logit) : Prop := Logit.ltb a b = false.

(** The value [torch.topk(logits, k)[0][..., -1]]. *)
Definition kth_largest (logits : list logit) (k : nat) : logit :=
  last (topk_values logits k) NegInf.

(** [not_sentinel filter_value v]: the entry [v] differs from the
    sentinel. *)
Definition not_sentinel (filter_value v : logit) : bool :=
  negb (Logit.eqb v filter_value).

(** [ranks_before x y]: the pair [x] comes before [y] in the sorted order,
    by a larger value or, on a tie, by a smaller index. *)
Definition ranks_before (x y : logit * nat) : bool :=
  negb (Logit.ltb (fst x) (fst y)) &&
  (Logit.ltb (fst y) (fst x) || (snd x <? snd y)%nat).

Definition Rb (x y : logit * nat) : Prop := ranks_before x y = true.

(** The probabilities that come before each sorted position: the
    cumulative sums shifted one place to the right. *)
Fixpoint before_from (acc : Q) (l : list Q) : list Q :=
  match l with
  | [] => []
  | x :: t => acc :: before_from (acc + x) t
  end.

(** The softmax probability of a value [v] in the vector [logits]. *)
Definition prob (expw : Q -> Q) (logits : list logit) (v : logit) : Q :=
  weight expw v / sumQ (map (weight expw) logits).

(** The probability mass of the entries that the sort places before the
    entry [x = (value, index)]. *)
Definition mass_before (expw : Q -> Q) (logits : list logit)
           (x : logit * nat) : Q :=
  sumQ (map (fun y => prob expw logits (fst y))
            (filter (fun y => ranks_before y x) (enumerate logits))).

(** The test the nucleus branch applies to the entry [x]: it is removed
    when the mass before it exceeds [top_p]. *)
Definition kept (expw : Q -> Q) (logits : list logit) (top_p : Q)
           (x : logit * nat) : bool :=
  Logit.is_fin (fst x) && negb (Qltb top_p (mass_before expw logits x)).

(** Entry [i] of a filtered vector survives when it is not the [-inf]
    sentinel. *)
Definition survives (out : list logit) (i : nat) : Prop :=
  exists q, nth_error out i = Some (Fin q).


(** The configurations the specification calls invalid. *)
Definition invalid_config (length_ : Z) (temperature repitition_penalty : Q)
           (top_p : Q) (top_k : Z) : Prop :=
  (length_ <= 0)%Z \/ temperature <= 0 \/ repitition_penalty <= 0 \/
  top_p < 0 \/ 1 < top_p \/ (top_k < 0)%Z.

(** ** [main]: the sampling loop and the text it prints *)

(** A Python string, as its code points. *)
Definition str := list N.

(** An ASCII literal of the program. *)
Definition lit (s : string) : str := map N_of_ascii (list_ascii_of_string s).

Definition str_eqb (a b : str) : bool :=
  (length a =? length b)%nat && forallb (fun p => N.eqb (fst p) (snd p)) (combine a b).

(** [str(n)] for an integer. *)
Definition str_of_int (n : Z) : str := lit (NilZero.string_of_int (Z.to_int n)).

(** [c * n] for a one-character string. *)
Definition str_times (c : N) (n : nat) : str := repeat c n.

(** The characters [str.strip()] removes: those Python counts as
    whitespace. *)
Definition is_space (c : N) : bool :=
  ((9 <=? c) && (c <=? 13) || (28 <=? c) && (c <=? 32) ||
   (c =? 133) || (c =? 160) || (c =? 5760) ||
   (8192 <=? c) && (c <=? 8202) ||
   (c =? 8232) || (c =? 8233) || (c =? 8239) || (c =? 8287) ||
   (c =? 12288))%N.

Fixpoint lstrip (s : str) : str :=
  match s with
  | [] => []
  | c :: t => if is_space c then lstrip t else s
  end.

Definition rstrip (s : str) : str := rev (lstrip (rev s)).

(** [s.strip()]. *)
Definition strip (s : str) : str := rstrip (lstrip s).

Fixpoint starts_with (old s : str) : bool :=
  match old, s with
  | [], _ => true
  | _ :: _, [] => false
  | o :: old', c :: s' => N.eqb o c && starts_with old' s'
  end.

(** The scan of [str.replace] for a non-empty [old]: left to right,
    an occurrence once replaced is skipped over. *)
Fixpoint replace_from (old new : str) (skip : nat) (s : str) : str :=
  match s with
  | [] => []
  | c :: t =>
      match skip with
      | S k => replace_from old new k t
      | O =>
          if starts_with old s
          then new ++ replace_from old new (length old - 1) t
          else c :: replace_from old new 0 t
      end
  end.

(** [s.replace(old, new)]; an empty [old] matches before every character
    and at the end. *)
Definition str_replace (old new s : str) : str :=
  match old with
  | [] => new ++ concat (map (fun c => c :: new) s)
  | _ :: _ => replace_from old new 0 s
  end.

(** Lines 117-123: the special tokens are rewritten in place. *)
Definition replace_special (item : str) : str :=
  if str_eqb item (lit "[MASK]") then []
  else if str_eqb item (lit "[CLS]") then [10; 10]%N
  else if str_eqb item (lit "[SEP]") then [10]%N
  else item.

(** Lines 117-127: what is printed for a list of tokens. *)
Definition render (text : list str) : str :=
  strip (str_replace (lit "##") [] (concat (map replace_special text))).

(** Line 125. *)
Definition info (generated : Z) : str :=
  str_times 61 35 ++ lit " SAMPLE " ++ str_of_int generated ++ lit " " ++
  str_times 61 35 ++ [10%N].

(** The arguments [main] reads after parsing. *)
Record arguments : Type := mkArguments {
  arg_length : Z;
  arg_nsamples : Z;
  arg_temperature : Q;
  arg_topk : Z;
  arg_topp : Q;
  arg_prefix : str;
  arg_repetition_penalty : Q
}.

Section Main.

Variable expw : Q -> Q.
Variable model : list token -> list Q.
Variable rng : Type.
Variable multinomial : list Q -> rng -> option (nat * rng).
Variable unk : token.
(** [model.config.n_ctx]. *)
Variable n_ctx : Z.
(** [tokenizer.tokenize] followed by [tokenizer.convert_tokens_to_ids]. *)
Variable encode : str -> list token.
Variable convert_ids_to_tokens : list token -> list str.

(** What [main] acts on: the state of the decoder and the lines printed
    so far, one entry per call of [print]. *)
Record world : Type := mkWorld { dec : state rng; stdout : list str }.

(** Where a run stands when the fuel given to the [while True] loop is
    used up, or how it ended before. *)
Inductive outcome : Type :=
| Returned (w : world)
| Raised (e : exn)
| Running (w : world).

(** Lines 104-128: the [for] loop over the samples. *)
Fixpoint samples (n : nat) (length_ : Z) (a : arguments)
         (context_tokens : list token) (generated : Z) (w : world)
  : result (Z * world) :=
  match n with
  | O => Ok (generated, w)
  | S n' =>
      match generate expw model multinomial unk context_tokens length_ n_ctx
                     (arg_temperature a) (arg_topk a) (arg_topp a)
                     (arg_repetition_penalty a) (dec w) with
      | Raise e => Raise e
      | Ok (out, d) =>
          let generated := (generated + 1)%Z in
          let text := convert_ids_to_tokens out in
          samples n' length_ a context_tokens generated
                  (mkWorld d (stdout w ++ [info generated; render text]))
      end
  end.

(** Lines 97-131: the [while True] loop, run for at most [fuel] passes. *)
Fixpoint passes (fuel : nat) (length_ : Z) (a : arguments) (w : world)
  : outcome :=
  match fuel with
  | O => Running w
  | S fuel' =>
      let context_tokens := encode (arg_prefix a) in
      match samples (Z.to_nat (arg_nsamples a)) length_ a context_tokens 0 w with
      | Raise e => Raised e
      | Ok (generated, w) =>
          let w := mkWorld (dec w) (stdout w ++ [str_times 61 80]) in
          if (generated =? arg_nsamples a)%Z then Returned w
          else passes fuel' length_ a w
      end
  end.

(** Lines 76-131 of [main], once the arguments are parsed and the model
    and the tokenizer are loaded. *)
Definition main (fuel : nat) (a : arguments) (w : world) : outcome :=
  let length_ := if (arg_length a =? -1)%Z then n_ctx else arg_length a in
  passes fuel length_ a w.

End Main.

Arguments Raised {rng} e.

(** The lines the [for] loop prints: a numbered header before each
    sample text. *)
Fixpoint numbered (generated : Z) (texts : list str) : list str :=
  match texts with
  | [] => []
  | t :: rest =>
      info (generated + 1) :: t :: numbered (generated + 1) rest
  end.

(** Whether two [#] stand side by side in [s]. *)
Definition starts_with_hash (s : str) : bool :=
  match s with
  | c :: _ => N.eqb c 35
  | [] => false
  end.

Fixpoint has_double_hash (s : str) : bool :=
  match s with
  | [] => false
  | c :: t => (N.eqb c 35 && starts_with_hash t) || has_double_hash t
  end.


(** [contains sub s]: [sub] occurs in [s]. *)
Definition contains (sub s : str) : Prop :=
  exists front back, s = front ++ sub ++ back.

Module DemoMain.

Definition args : arguments := mkArguments 2 2 1 2 0 (lit "ab") 1.

Definition encode (prefix : str) : list token :=
  map (fun c => (N.to_nat c mod 12)%nat) prefix.

Definition convert_ids_to_tokens (ids : list token) : list str :=
  map (fun i => if (i =? 9)%nat then lit "##x"
                else if (i =? 10)%nat then lit "[CLS]"
                else lit " y ") ids.

Definition w0 : world unit := mkWorld Demo.s0 [].

End DemoMain.

(** ** The filter over the contract of the tensor library *)

Module Torch.

Section Filter.

(** [torch.sort(t, descending=True)], [F.softmax] and [torch.cumsum] as
    the library computes them: which of two tied entries the sort puts
    first, and how the sums and quotients are rounded, is the library's
    choice.  The probabilities of a vector with a finite entry are finite
    and are read as rationals. *)
Variable sort : list logit -> list logit * list nat.
Variable softmax : list logit -> list Q.
Variable cumsum : list Q -> list Q.
(** [c > top_p] for an entry [c] of a tensor and the number [top_p]: the
    library compares in the precision of the tensor, to which it first
    brings [top_p]. *)
Variable gt : Q -> Q -> bool.

(** Lines 27-38. *)
Definition top_p_step (logits : list logit) (top_p : Q) (filter_value : logit)
  : result (list logit) :=
  if Qltb 0 top_p then
    let '(sorted_logits, sorted_indices) := sort logits in
    let cumulative_probs := cumsum (softmax sorted_logits) in
    let sorted_indices_to_remove :=
      map (fun c => gt c top_p) cumulative_probs in
    match sorted_indices_to_remove with
    | [] => Raise IndexError
    | _ :: _ =>
        let sorted_indices_to_remove :=
          false :: removelast sorted_indices_to_remove in
        let indices_to_remove :=
          masked_select sorted_indices sorted_indices_to_remove in
        Ok (index_fill logits indices_to_remove filter_value)
    end
  else Ok logits.

(** Lines 9-39. *)
Definition top_k_top_p_filtering
  (logits : list logit) (top_k : Z) (top_p : Q) (filter_value : logit)
  : result (list logit) :=
  top_p_step (top_k_step logits top_k filter_value) top_p filter_value.

End Filter.

End Torch.

(** What the library promises of [torch.sort(t, descending=True)]: the
    indices are a permutation of the positions, the values are the entries
    at those indices, and the values descend.  The order of tied entries is
    left open. *)
Record sort_contract (sort : list logit -> list logit * list nat) : Prop := {
  sort_indices :
    forall l, Permutation (snd (sort l)) (seq 0 (length l));
  sort_values :
    forall l, fst (sort l) = map (fun i => nth i l NegInf) (snd (sort l));
  sort_descending :
    forall l, StronglySorted desc (fst (sort l))
}.


(** [masks l l']: [l'] is [l] with some entries replaced by [-inf]; the
    other entries have the same numeric value. *)
Definition masks (l l' : list logit) : Prop :=
  Forall2 (fun v v' => v' = NegInf \/ Logit.eqb v v' = true) l l'.

(** The comparison in exact arithmetic. *)
Definition Qgtb (c top_p : Q) : bool := Qltb top_p c.

(** What the properties use of [F.softmax], [torch.cumsum] and the
    comparison, each a fact of rounded arithmetic with a fixed order of
    operations.  [softmax] and [cumsum] keep the length, and a number that
    exceeds [top_p] in the comparison of the library is not below one that
    does not. *)
Record library_contract (softmax : list logit -> list Q)
       (cumsum : list Q -> list Q) (gt : Q -> Q -> bool) : Prop := {
  softmax_length : forall l, length (softmax l) = length l;
  cumsum_length : forall l, length (cumsum l) = length l;
  gt_monotone :
    forall c c' top_p, c <= c' -> gt c top_p = true -> gt c' top_p = true
}.


(** Replacing entries by [-inf] lowers no probability of an entry left
    in place (the total shrinks, the quotient grows), and a running sum
    is monotone in its terms. *)
Record masking_contract (softmax : list logit -> list Q)
       (cumsum : list Q -> list Q) : Prop := {
  softmax_masks :
    forall l l' i q,
      masks l l' -> nth_error l' i = Some (Fin q) ->
      nth i (softmax l) 0 <= nth i (softmax l') 0;
  cumsum_monotone :
    forall l l' j,
      length l = length l' ->
      (forall i, (i <= j)%nat -> nth i l 0 <= nth i l' 0) ->
      nth j (cumsum l) 0 <= nth j (cumsum l') 0
}.

(** The shifted removal mask of lines 32-35 at sorted position [j]:
    position 0 is kept, a later position is removed when the cumulative
    probability through the position before it exceeds [top_p]. *)
Definition removed_at (gt : Q -> Q -> bool) (top_p : Q)
           (cumulative_probs : list Q) (j : nat) : bool :=
  match j with
  | O => false
  | S j' => gt (nth j' cumulative_probs 0) top_p
  end.


(** [tied logits i i']: the entries at [i] and [i'] hold the same value. *)
Definition tied (logits : list logit) (i i' : nat) : Prop :=
  exists v v',
    nth_error logits i = Some v /\ nth_error logits i' = Some v' /\
    Logit.eqb v v' = true.

(** ** A sort that does not keep the order of ties *)

(** The introsort of the C++ standard library on an array of (value,
    index) pairs: median-of-three quicksort while a range has more than 16
    entries, then one insertion sort over the whole array.  Iterators are
    positions in the list; the loops that the library leaves unguarded
    carry fuel.  The heap sort that the library falls back on when the
    recursion is too deep is left out. *)
Module StdSort.

Definition elt : Type := (logit * nat)%type.

(** The comparison of a descending sort, on the values alone. *)
Definition comp (x y : elt) : bool := Logit.ltb (fst y) (fst x).

Definition get (a : list elt) (i : nat) : elt := nth i a (NegInf, 0%nat).

Definition iter_swap (a : list elt) (i j : nat) : list elt :=
  set_nth j (get a i) (set_nth i (get a j) a).

(** The median of the entries at [x], [y] and [z] goes to [result]. *)
Definition move_median_to_first (a : list elt) (result x y z : nat)
  : list elt :=
  if comp (get a x) (get a y) then
    if comp (get a y) (get a z) then iter_swap a result y
    else if comp (get a x) (get a z) then iter_swap a result z
    else iter_swap a result x
  else if comp (get a x) (get a z) then iter_swap a result x
  else if comp (get a y) (get a z) then iter_swap a result z
  else iter_swap a result y.

(** [while (comp(first, pivot)) ++first]. *)
Fixpoint scan_up (fuel : nat) (a : list elt) (first pivot : nat) : nat :=
  match fuel with
  | O => first
  | S fuel =>
      if comp (get a first) (get a pivot) then scan_up fuel a (S first) pivot
      else first
  end.

(** [while (comp(pivot, last)) --last]. *)
Fixpoint scan_down (fuel : nat) (a : list elt) (last pivot : nat) : nat :=
  match fuel with
  | O => last
  | S fuel =>
      if comp (get a pivot) (get a last) then scan_down fuel a (last - 1) pivot
      else last
  end.

Fixpoint unguarded_partition (fuel : nat) (a : list elt)
         (first last pivot : nat) : list elt * nat :=
  match fuel with
  | O => (a, first)
  | S fuel =>
      let first := scan_up (length a) a first pivot in
      let last := scan_down (length a) a (last - 1) pivot in
      if (first <? last)%nat
      then unguarded_partition fuel (iter_swap a first last) (S first) last
                               pivot
      else (a, first)
  end.

Fixpoint introsort_loop (fuel : nat) (a : list elt)
         (first last depth_limit : nat) : list elt :=
  match fuel with
  | O => a
  | S fuel =>
      if (16 <? last - first)%nat then
        match depth_limit with
        | O => a
        | S depth_limit =>
            let mid := (first + (last - first) / 2)%nat in
            let a := move_median_to_first a first (first + 1) mid (last - 1) in
            let '(a, cut) :=
              unguarded_partition (length a) a (first + 1) last first in
            let a := introsort_loop fuel a cut last depth_limit in
            introsort_loop fuel a first cut depth_limit
        end
      else a
  end.

(** The entry [val], taken from position [last], moves down past the
    entries it comes before. *)
Fixpoint unguarded_linear_insert (a : list elt) (val : elt) (last : nat)
  : list elt :=
  match last with
  | O => set_nth 0 val a
  | S next =>
      if comp val (get a next)
      then unguarded_linear_insert (set_nth last (get a next) a) val next
      else set_nth last val a
  end.

Definition final_insertion_sort (a : list elt) : list elt :=
  fold_left (fun a i => unguarded_linear_insert a (get a i) i)
            (seq 1 (length a - 1)) a.

Definition sort (a : list elt) : list elt :=
  final_insertion_sort
    (introsort_loop (length a) a 0 (length a) (2 * Nat.log2 (length a))).

End StdSort.

(** [descending_b l]: no entry of [l] is below its successor. *)
Fixpoint descending_b (l : list logit) : bool :=
  match l with
  | a :: t =>
      match t with
      | b :: _ => negb (Logit.ltb a b) && descending_b t
      | [] => true
      end
  | [] => true
  end.

(** [permutation_b idx n]: [idx] lists the positions below [n], each
    once. *)
Definition permutation_b (idx : list nat) (n : nat) : bool :=
  (length idx =? n)%nat &&
  forallb (fun i => existsb (Nat.eqb i) idx) (seq 0 n).

(** A sort within the contract of [torch.sort] that orders ties as the
    introsort does: up to 16 entries in index order, beyond that as the
    partition leaves them, which depends on the other entries.  The
    result of the introsort is used when it is a descending permutation
    and the stable order otherwise. *)
Definition sort_unstable (l : list logit) : list logit * list nat :=
  let sorted_indices := map snd (StdSort.sort (enumerate l)) in
  let sorted_logits := map (fun i => nth i l NegInf) sorted_indices in
  if permutation_b sorted_indices (length l) && descending_b sorted_logits
  then (sorted_logits, sorted_indices)
  else sort_desc l.

(** * Properties *)

(** ** List-level facts about the tensor operations *)

Section TensorFacts.

Context {A : Type}.

Lemma set_nth_length (i : nat) (v : A) (l : list A) :
  length (set_nth i v l) = length l.
Proof.
  revert i; induction l as [|x t IH]; intros [|j]; simpl; auto.
Qed.

Lemma nth_error_set_nth_eq (i : nat) (v : A) (l : list A) :
  (i < length l)%nat -> nth_error (set_nth i v l) i = Some v.
Proof.
  revert i; induction l as [|x t IH]; intros [|j] H; simpl in *;
    try lia; auto.
  apply IH; lia.
Qed.

Lemma nth_error_set_nth_neq (i j : nat) (v : A) (l : list A) :
  i <> j -> nth_error (set_nth i v l) j = nth_error l j.
Proof.
  revert i j; induction l as [|x t IH]; intros [|i] [|j] H; simpl;
    auto; try congruence.
Qed.

Lemma nth_error_set_nth (i j : nat) (v : A) (l : list A) :
  nth_error (set_nth i v l) j =
  if Nat.eqb i j then
    (if j <? length l then Some v else None)%nat
  else nth_error l j.
Proof.
  destruct (Nat.eqb_spec i j) as [->|N].
  - destruct (Nat.ltb_spec j (length l)).
    + now apply nth_error_set_nth_eq.
    + apply nth_error_None. rewrite set_nth_length. lia.
  - now apply nth_error_set_nth_neq.
Qed.

Lemma masked_fill_length (l : list A) (m : list bool) (v : A) :
  length (masked_fill l m v) = length l.
Proof.
  revert m; induction l as [|x t IH]; intros [|b m]; simpl; auto.
Qed.

Lemma nth_error_masked_fill (f : A -> bool) (l : list A) (v : A) (i : nat) :
  nth_error (masked_fill l (map f l) v) i =
  option_map (fun x => if f x then v else x) (nth_error l i).
Proof.
  revert i; induction l as [|x t IH]; intros [|i]; simpl; auto.
Qed.

Lemma index_fill_length (idx : list nat) (v : A) (l : list A) :
  length (index_fill l idx v) = length l.
Proof.
  unfold index_fill. revert l.
  induction idx as [|i idx IH]; intros l; simpl; auto.
  rewrite IH. apply set_nth_length.
Qed.

Lemma index_fill_keeps (idx : list nat) (v : A) (l : list A) (i : nat) :
  nth_error l i = Some v -> nth_error (index_fill l idx v) i = Some v.
Proof.
  unfold index_fill. revert l.
  induction idx as [|j idx IH]; intros l H; simpl; auto.
  apply IH. rewrite nth_error_set_nth.
  destruct (Nat.eqb_spec j i) as [->|]; auto.
  destruct (Nat.ltb_spec i (length l)) as [|Hge]; auto.
  apply nth_error_None in Hge. congruence.
Qed.

Lemma nth_error_index_fill_in (idx : list nat) (v : A) (l : list A) (i : nat) :
  In i idx -> (i < length l)%nat ->
  nth_error (index_fill l idx v) i = Some v.
Proof.
  revert l.
  induction idx as [|j idx IH]; intros l Hin Hlt; simpl in *; [easy|].
  destruct Hin as [->|Hin].
  - apply (index_fill_keeps idx). now apply nth_error_set_nth_eq.
  - apply IH; auto. now rewrite set_nth_length.
Qed.

Lemma nth_error_index_fill_notin (idx : list nat) (v : A) (l : list A) (i : nat) :
  ~ In i idx -> nth_error (index_fill l idx v) i = nth_error l i.
Proof.
  unfold index_fill. revert l.
  induction idx as [|j idx IH]; intros l Hin; simpl in *; auto.
  rewrite IH by tauto. apply nth_error_set_nth_neq. tauto.
Qed.

Lemma masked_select_In (l : list A) (m : list bool) (x : A) :
  In x (masked_select l m) -> In x l.
Proof.
  revert m; induction l as [|y t IH]; intros [|b m]; simpl; try tauto.
  destruct b; simpl; intros H; [destruct H|]; eauto.
Qed.

End TensorFacts.

(** ** The monad of [generate] *)

Section MonadFacts.

Context {rng : Type}.

Lemma bind_Ok {A B} (m : M rng A) (f : A -> M rng B) s b s' :
  bind m f s = Ok (b, s') <->
  exists a s1, m s = Ok (a, s1) /\ f a s1 = Ok (b, s').
Proof.
  unfold bind. split.
  - destruct (m s) as [[a s1]|e]; [|discriminate]. eauto.
  - intros (a & s1 & -> & H). exact H.
Qed.

Lemma lift_Ok {A} (r : result A) s a s' :
  lift (rng:=rng) r s = Ok (a, s') <-> r = Ok a /\ s' = s.
Proof.
  unfold lift. destruct r; split; intros H.
  - inversion H; auto.
  - destruct H as [H ->]. inversion H; auto.
  - discriminate.
  - destruct H; discriminate.
Qed.

Lemma ret_Ok {A} (x : A) s a s' :
  ret (rng:=rng) x s = Ok (a, s') <-> a = x /\ s' = s.
Proof.
  unfold ret. split; intros H.
  - inversion H; auto.
  - destruct H as [-> ->]; auto.
Qed.

End MonadFacts.

(** ** The window of line 49 *)

Lemma py_slice_from_length {A} (l : list A) (w : Z) :
  (1 <= w)%Z ->
  length (py_slice_from l (- w)) = Nat.min (length l) (Z.to_nat w).
Proof.
  intros H. unfold py_slice_from.
  destruct (Z.ltb_spec (- w) 0); [|lia].
  rewrite length_skipn, Z.opp_involutive. lia.
Qed.

Lemma py_slice_from_zero {A} (l : list A) : py_slice_from l (- 0) = l.
Proof. reflexivity. Qed.

Lemma window_bound (generated : list token) (n_ctx : Z) :
  (2 <= n_ctx)%Z ->
  (Z.of_nat (length (py_slice_from generated (- (n_ctx - 1)))) <= n_ctx - 1)%Z.
Proof.
  intros H. rewrite py_slice_from_length by lia. lia.
Qed.

Lemma window_suffix {A} (l : list A) (s : Z) :
  exists front, l = front ++ py_slice_from l s.
Proof.
  unfold py_slice_from.
  destruct (s <? 0)%Z; eexists; symmetry; apply firstn_skipn.
Qed.

(** ** The order on logits *)

Lemma Qle_bool_false (x y : Q) : Qle_bool x y = false <-> y < x.
Proof.
  rewrite <- not_true_iff_false, Qle_bool_iff. split; intros H; lra.
Qed.

Lemma Qltb_true (x y : Q) : Qltb x y = true <-> x < y.
Proof. unfold Qltb. rewrite negb_true_iff. apply Qle_bool_false. Qed.

Lemma Qltb_false (x y : Q) : Qltb x y = false <-> y <= x.
Proof. unfold Qltb. rewrite negb_false_iff. apply Qle_bool_iff. Qed.

#[export] Instance Qltb_comp : Proper (Qeq ==> Qeq ==> eq) Qltb.
Proof. intros a b E c d F. unfold Qltb. now rewrite E, F. Qed.

Ltac logit_order :=
  intros;
  repeat match goal with x : logit |- _ => destruct x end;
  simpl in *;
  rewrite ?negb_true_iff, ?negb_false_iff in *;
  try discriminate; try reflexivity;
  repeat match goal with
    | H : Qle_bool _ _ = true |- _ => apply Qle_bool_iff in H
    | H : Qle_bool _ _ = false |- _ => apply Qle_bool_false in H
    | H : Qeq_bool _ _ = true |- _ => apply Qeq_bool_iff in H
    end;
  try match goal with
    | |- Qle_bool _ _ = true => apply Qle_bool_iff
    | |- Qle_bool _ _ = false => apply Qle_bool_false
    | |- Qeq_bool _ _ = true => apply Qeq_bool_iff
    end;
  try lra.

Module LogitFacts.

Lemma ltb_irrefl a : Logit.ltb a a = false.
Proof. logit_order. Qed.

Lemma ltb_asym a b : Logit.ltb a b = true -> Logit.ltb b a = false.
Proof. logit_order. Qed.

Lemma ltb_trans a b c :
  Logit.ltb a b = true -> Logit.ltb b c = true -> Logit.ltb a c = true.
Proof. logit_order. Qed.

Lemma geb_trans a b c :
  Logit.ltb a b = false -> Logit.ltb b c = false -> Logit.ltb a c = false.
Proof. logit_order. Qed.

Lemma ltb_geb_trans a b c :
  Logit.ltb a b = true -> Logit.ltb c b = false -> Logit.ltb a c = true.
Proof. logit_order. Qed.

Lemma geb_ltb_trans a b c :
  Logit.ltb b a = false -> Logit.ltb b c = true -> Logit.ltb a c = true.
Proof. logit_order. Qed.

Lemma ltb_fin_r a b : Logit.ltb a b = true -> Logit.is_fin b = true.
Proof. logit_order. Qed.


Lemma is_fin_false a : Logit.is_fin a = false <-> a = NegInf.
Proof. destruct a; simpl; split; congruence. Qed.

Lemma ltb_NegInf_r a : Logit.ltb a NegInf = false.
Proof. destruct a; reflexivity. Qed.

End LogitFacts.

(** ** The descending stable sort *)

Section SortFacts.

Import LogitFacts.

Lemma ranks_before_irrefl x : ranks_before x x = false.
Proof.
  unfold ranks_before. rewrite ltb_irrefl, Nat.ltb_irrefl. reflexivity.
Qed.

Lemma ranks_before_asym x y :
  ranks_before x y = true -> ranks_before y x = false.
Proof.
  unfold ranks_before. destruct x as [a i], y as [b j]; simpl.
  rewrite andb_true_iff, orb_true_iff, negb_true_iff, Nat.ltb_lt.
  intros [H1 [H2|H2]].
  - now rewrite H2.
  - rewrite H1. simpl. destruct (Logit.ltb b a); simpl; auto.
    apply Nat.ltb_ge. lia.
Qed.

Lemma ranks_before_trans x y z :
  ranks_before x y = true -> ranks_before y z = true ->
  ranks_before x z = true.
Proof.
  unfold ranks_before. destruct x as [a i], y as [b j], z as [c k]; simpl.
  rewrite !andb_true_iff, !orb_true_iff, !negb_true_iff, !Nat.ltb_lt.
  intros [H1 H2] [H3 H4]. split.
  - eapply geb_trans; eauto.
  - destruct H2 as [H2|H2].
    + left. eapply geb_ltb_trans; eauto.
    + destruct H4 as [H4|H4].
      * left. eapply ltb_geb_trans; eauto.
      * right. lia.
Qed.

Lemma ranks_before_total x y :
  snd x <> snd y -> ranks_before x y = true \/ ranks_before y x = true.
Proof.
  unfold ranks_before. destruct x as [a i], y as [b j]; simpl. intros N.
  destruct (Logit.ltb a b) eqn:E1, (Logit.ltb b a) eqn:E2; simpl; auto.
  - apply ltb_asym in E1. congruence.
  - destruct (Nat.ltb_spec i j), (Nat.ltb_spec j i); auto. lia.
Qed.

Lemma ranks_before_geb x y :
  ranks_before x y = true -> Logit.ltb (fst x) (fst y) = false.
Proof.
  unfold ranks_before. rewrite andb_true_iff, negb_true_iff. tauto.
Qed.

Lemma insert_desc_perm x l : Permutation (insert_desc x l) (x :: l).
Proof.
  induction l as [|y t IH]; simpl; auto.
  destruct (Logit.ltb (fst x) (fst y)); auto.
  rewrite IH. apply perm_swap.
Qed.

Lemma sort_pairs_perm l : Permutation (sort_pairs l) l.
Proof.
  induction l as [|x t IH]; simpl; auto.
  rewrite insert_desc_perm. now constructor.
Qed.

Lemma insert_desc_sorted x l :
  StronglySorted Rb l ->
  Forall (fun y => (snd x < snd y)%nat) l ->
  StronglySorted Rb (insert_desc x l).
Proof.
  induction 1 as [|y t Hs IH Hy]; intros Hx; simpl.
  - repeat constructor.
  - inversion Hx as [|? ? Hxy Hxt]; subst.
    destruct (Logit.ltb (fst x) (fst y)) eqn:E.
    + constructor; auto.
      eapply Permutation_Forall.
      * symmetry. apply insert_desc_perm.
      * constructor; auto.
        unfold Rb, ranks_before. rewrite (ltb_asym _ _ E), E. reflexivity.
    + assert (Hr : Rb x y).
      { unfold Rb, ranks_before. rewrite E. simpl.
        apply orb_true_iff. right. now apply Nat.ltb_lt. }
      constructor.
      * now constructor.
      * constructor; auto.
        rewrite Forall_forall in *. intros z Hz.
        eapply ranks_before_trans; [exact Hr|]. now apply Hy.
Qed.

Lemma enumerate_from_snd (l : list logit) (k : nat) :
  Forall (fun y => (k <= snd y)%nat) (combine l (seq k (length l))).
Proof.
  revert k; induction l as [|x t IH]; intros k; simpl; constructor.
  - simpl. lia.
  - eapply Forall_impl; [|apply (IH (S k))]. simpl. intros; lia.
Qed.

Lemma sort_pairs_sorted_from (l : list logit) (k : nat) :
  StronglySorted Rb (sort_pairs (combine l (seq k (length l)))).
Proof.
  revert k; induction l as [|x t IH]; intros k; simpl.
  - constructor.
  - apply insert_desc_sorted; auto.
    eapply Permutation_Forall.
    + symmetry. apply sort_pairs_perm.
    + eapply Forall_impl; [|apply (enumerate_from_snd t (S k))].
      simpl. intros; lia.
Qed.

Lemma sort_pairs_sorted (l : list logit) :
  StronglySorted Rb (sort_pairs (enumerate l)).
Proof. apply sort_pairs_sorted_from. Qed.

End SortFacts.

(** ** Generic list facts *)

Section ListFacts.

Context {A : Type}.

Lemma filter_perm (f : A -> bool) (l l' : list A) :
  Permutation l l' -> Permutation (filter f l) (filter f l').
Proof.
  induction 1 as [|x l l' _ IH|x y l|l l' l'' _ IH1 _ IH2]; simpl.
  - constructor.
  - destruct (f x); auto.
  - destruct (f x), (f y); auto using perm_swap.
  - etransitivity; eauto.
Qed.

Lemma countb_perm (f : A -> bool) (l l' : list A) :
  Permutation l l' -> countb f l = countb f l'.
Proof.
  intros H. apply Permutation_length. now apply filter_perm.
Qed.

Lemma countb_app (f : A -> bool) (l l' : list A) :
  countb f (l ++ l') = (countb f l + countb f l')%nat.
Proof. unfold countb. now rewrite filter_app, length_app. Qed.

Lemma countb_all (f : A -> bool) (l : list A) :
  Forall (fun x => f x = true) l -> countb f l = length l.
Proof.
  unfold countb. induction 1 as [|x l Hx _ IH]; simpl; auto.
  rewrite Hx. simpl. now rewrite IH.
Qed.

Lemma countb_none (f : A -> bool) (l : list A) :
  Forall (fun x => f x = false) l -> countb f l = 0%nat.
Proof.
  unfold countb. induction 1 as [|x l Hx _ IH]; simpl; auto.
  now rewrite Hx.
Qed.

Lemma filter_all (f : A -> bool) (l : list A) :
  Forall (fun x => f x = true) l -> filter f l = l.
Proof.
  induction 1 as [|x l Hx _ IH]; simpl; auto. now rewrite Hx, IH.
Qed.

Lemma filter_none (f : A -> bool) (l : list A) :
  Forall (fun x => f x = false) l -> filter f l = [].
Proof.
  induction 1 as [|x l Hx _ IH]; simpl; auto. now rewrite Hx.
Qed.

Lemma countb_le_length (f : A -> bool) (l : list A) :
  (countb f l <= length l)%nat.
Proof. apply filter_length_le. Qed.

Lemma StronglySorted_app_elim (R : A -> A -> Prop) (l1 l2 : list A) (x : A) :
  StronglySorted R (l1 ++ x :: l2) ->
  Forall (fun y => R y x) l1 /\ Forall (R x) l2.
Proof.
  induction l1 as [|a l1 IH]; simpl; intros H.
  - inversion H; subst. auto.
  - inversion H as [|? ? Hs Ha]; subst.
    destruct (IH Hs) as [H1 H2]. split; auto.
    constructor; auto.
    rewrite Forall_forall in Ha. apply Ha.
    apply in_or_app. right. now left.
Qed.

Lemma StronglySorted_map {B} (f : A -> B) (R : A -> A -> Prop)
      (R' : B -> B -> Prop) (l : list A) :
  (forall x y, R x y -> R' (f x) (f y)) ->
  StronglySorted R l -> StronglySorted R' (map f l).
Proof.
  intros HR. induction 1 as [|x l _ IH Hx]; simpl; constructor; auto.
  rewrite Forall_forall in *. intros y Hy.
  apply in_map_iff in Hy. destruct Hy as (z & <- & Hz). auto.
Qed.

Lemma masked_fill_map (f : A -> bool) (l : list A) (v : A) :
  masked_fill l (map f l) v = map (fun x => if f x then v else x) l.
Proof. induction l as [|x t IH]; simpl; congruence. Qed.

End ListFacts.

(** ** Top-k *)

Section TopK.

Import LogitFacts.

Lemma enumerate_fst (l : list logit) : map fst (enumerate l) = l.
Proof.
  unfold enumerate. generalize 0%nat.
  induction l as [|x t IH]; intros k; simpl; auto. now rewrite IH.
Qed.

Lemma enumerate_snd (l : list logit) :
  map snd (enumerate l) = seq 0 (length l).
Proof.
  unfold enumerate. generalize 0%nat.
  induction l as [|x t IH]; intros k; simpl; auto. now rewrite IH.
Qed.

Lemma sort_desc_perm (l : list logit) : Permutation (fst (sort_desc l)) l.
Proof.
  unfold sort_desc. simpl.
  rewrite <- (enumerate_fst l) at 2.
  apply Permutation_map, sort_pairs_perm.
Qed.

Lemma sort_desc_length (l : list logit) :
  length (fst (sort_desc l)) = length l.
Proof. apply Permutation_length, sort_desc_perm. Qed.

Lemma sort_desc_sorted (l : list logit) :
  StronglySorted desc (fst (sort_desc l)).
Proof.
  unfold sort_desc. simpl.
  eapply StronglySorted_map; [|apply sort_pairs_sorted].
  intros x y. apply ranks_before_geb.
Qed.

Lemma kth_largest_spec (logits : list logit) (k : nat) :
  (0 < k <= length logits)%nat ->
  let thr := kth_largest logits k in
  In thr logits /\
  (k <= countb (fun v => negb (Logit.ltb v thr)) logits)%nat /\
  (countb (fun v => Logit.ltb thr v) logits < k)%nat.
Proof.
  intros Hk thr.
  pose proof (sort_desc_perm logits) as Hp.
  pose proof (sort_desc_sorted logits) as Hs.
  pose proof (sort_desc_length logits) as Hl.
  unfold thr, kth_largest, topk_values.
  set (vals := fst (sort_desc logits)) in *.
  assert (Hne : firstn k vals <> []).
  { intros E. apply (f_equal (@length _)) in E.
    rewrite length_firstn in E. simpl in E. lia. }
  destruct (exists_last Hne) as (front & t & Ef).
  rewrite Ef, last_last.
  assert (Hlen : (length front + 1 = k)%nat).
  { apply (f_equal (@length _)) in Ef.
    rewrite length_firstn, length_app in Ef. simpl in Ef. lia. }
  assert (Ev : vals = front ++ t :: skipn k vals).
  { rewrite <- (firstn_skipn k vals) at 1. rewrite Ef, <- app_assoc.
    reflexivity. }
  rewrite Ev in Hs. apply StronglySorted_app_elim in Hs.
  destruct Hs as [H1 H2].
  split; [|split].
  - eapply Permutation_in; [exact Hp|]. rewrite Ev.
    apply in_or_app. right. now left.
  - rewrite <- (countb_perm _ Hp), Ev, countb_app.
    rewrite (@countb_all _ (fun v => negb (Logit.ltb v t)) front).
    + unfold countb at 1. simpl. rewrite ltb_irrefl. simpl. lia.
    + eapply Forall_impl; [|exact H1]. unfold desc. simpl.
      intros a ->. reflexivity.
  - rewrite <- (countb_perm _ Hp), Ev, countb_app.
    rewrite (@countb_none _ (fun v => Logit.ltb t v) (t :: skipn k vals)).
    + pose proof (countb_le_length (fun v => Logit.ltb t v) front). lia.
    + constructor; [apply ltb_irrefl|exact H2].
Qed.

Lemma top_k_step_nonpos (logits : list logit) (top_k : Z) (fv : logit) :
  (top_k <= 0)%Z -> top_k_step logits top_k fv = logits.
Proof.
  intros H. unfold top_k_step.
  destruct (Z.ltb_spec 0 (Z.min top_k (Z.of_nat (length logits)))); auto.
  lia.
Qed.

Lemma top_k_step_pos (logits : list logit) (top_k : Z) (fv : logit) :
  (0 < top_k)%Z -> logits <> [] ->
  top_k_step logits top_k fv =
  map (fun v =>
         if Logit.ltb v
              (kth_largest logits
                 (Z.to_nat (Z.min top_k (Z.of_nat (length logits)))))
         then fv else v) logits.
Proof.
  intros H Hne. unfold top_k_step.
  destruct (Z.ltb_spec 0 (Z.min top_k (Z.of_nat (length logits)))).
  - apply masked_fill_map.
  - destruct logits; [congruence|]. simpl length in *. lia.
Qed.

Lemma top_k_step_length (logits : list logit) (top_k : Z) (fv : logit) :
  length (top_k_step logits top_k fv) = length logits.
Proof.
  unfold top_k_step.
  destruct (0 <? Z.min top_k (Z.of_nat (length logits)))%Z; auto.
  apply masked_fill_length.
Qed.

Lemma top_p_step_zero expw (logits : list logit) (top_p : Q) (fv : logit) :
  top_p <= 0 -> top_p_step expw logits top_p fv = Ok logits.
Proof.
  intros H. unfold top_p_step.
  apply Qltb_false in H. now rewrite H.
Qed.

End TopK.

(** ** What the filter writes *)

Section FilterEntries.

Variable expw : Q -> Q.

Lemma top_k_step_entry (logits : list logit) (top_k : Z) (fv : logit) i v :
  nth_error logits i = Some v ->
  nth_error (top_k_step logits top_k fv) i = Some v \/
  nth_error (top_k_step logits top_k fv) i = Some fv.
Proof.
  intros H. unfold top_k_step.
  destruct (0 <? Z.min top_k (Z.of_nat (length logits)))%Z; auto.
  rewrite nth_error_masked_fill, H. simpl.
  destruct (Logit.ltb v _); auto.
Qed.

Lemma top_p_step_length (logits : list logit) (top_p : Q) (fv : logit) out :
  top_p_step expw logits top_p fv = Ok out -> length out = length logits.
Proof.
  unfold top_p_step. destruct (Qltb 0 top_p); [|now inversion 1].
  unfold sort_desc.
  destruct (map _ (cumsum _)); [discriminate|].
  inversion 1. apply index_fill_length.
Qed.

Lemma top_p_step_entry (logits : list logit) (top_p : Q) (fv : logit) out i v :
  top_p_step expw logits top_p fv = Ok out ->
  nth_error logits i = Some v ->
  nth_error out i = Some v \/ nth_error out i = Some fv.
Proof.
  unfold top_p_step. destruct (Qltb 0 top_p); [|inversion 1; auto].
  unfold sort_desc.
  destruct (map _ (cumsum _)); [discriminate|].
  inversion 1. intros Hi.
  match goal with |- context [index_fill _ ?idx _] => set (removed := idx) end.
  destruct (in_dec Nat.eq_dec i removed) as [I|I].
  - right. apply nth_error_index_fill_in; auto.
    apply nth_error_Some. congruence.
  - left. rewrite nth_error_index_fill_notin; auto.
Qed.

Lemma filtering_length (logits : list logit) top_k top_p fv out :
  top_k_top_p_filtering expw logits top_k top_p fv = Ok out ->
  length out = length logits.
Proof.
  unfold top_k_top_p_filtering. intros H.
  apply top_p_step_length in H. now rewrite top_k_step_length in H.
Qed.

Lemma filtering_entry (logits : list logit) top_k top_p fv out i v :
  top_k_top_p_filtering expw logits top_k top_p fv = Ok out ->
  nth_error logits i = Some v ->
  nth_error out i = Some v \/ nth_error out i = Some fv.
Proof.
  unfold top_k_top_p_filtering. intros H Hi.
  destruct (top_k_step_entry logits top_k fv i Hi) as [E|E];
    destruct (top_p_step_entry _ _ _ i H E); auto.
Qed.

Lemma nth_error_softmax (l : list logit) (i : nat) :
  nth_error (softmax expw l) i =
  option_map (fun v => weight expw v / sumQ (map (weight expw) l))
             (nth_error l i).
Proof.
  unfold softmax. rewrite !nth_error_map.
  destruct (nth_error l i); reflexivity.
Qed.

End FilterEntries.

(** ** The generation loop *)

Section DecoderFacts.

Variable expw : Q -> Q.
Variable model : list token -> list Q.
Variable rng : Type.
Variable multinomial : list Q -> rng -> option (nat * rng).
Variable unk : token.

Variables (n_ctx : Z) (temperature : Q) (top_k : Z) (top_p : Q)
          (repitition_penalty : Q).

Let step_ := step expw model multinomial unk n_ctx temperature top_k top_p
                  repitition_penalty.
Let loop_ := loop expw model multinomial unk n_ctx temperature top_k top_p
                  repitition_penalty.

(** A successful iteration, stage by stage. *)
Lemma step_inv generated s generated' s' :
  step_ generated s = Ok (generated', s') ->
  exists penalised suppressed filtered next_token g,
    apply_repetition_penalty
      (model (py_slice_from generated (- (n_ctx - 1))))
      generated repitition_penalty = Ok penalised /\
    suppress (map (fun v => v / temperature) penalised) unk = Ok suppressed /\
    top_k_top_p_filtering expw suppressed top_k top_p NegInf = Ok filtered /\
    multinomial (softmax expw filtered) (gen s) = Some (next_token, g) /\
    generated' = generated ++ [next_token] /\
    s' = mkState g
           (queries s ++ [py_slice_from generated (- (n_ctx - 1))]).
Proof.
  unfold step_, step. intros H.
  apply bind_Ok in H. destruct H as (raw & s1 & Hq & H).
  unfold call_model in Hq. inversion Hq; subst raw s1; clear Hq.
  apply bind_Ok in H. destruct H as (pen & s2 & Hp & H).
  apply lift_Ok in Hp. destruct Hp as [Hp ->].
  apply bind_Ok in H. destruct H as (scaled & s3 & Hs & H).
  apply ret_Ok in Hs. destruct Hs as [-> ->].
  apply bind_Ok in H. destruct H as (sup & s4 & Hu & H).
  apply lift_Ok in Hu. destruct Hu as [Hu ->].
  apply bind_Ok in H. destruct H as (filt & s5 & Hf & H).
  apply lift_Ok in Hf. destruct Hf as [Hf ->].
  apply bind_Ok in H. destruct H as (tok & s6 & Hm & H).
  apply ret_Ok in H. destruct H as [-> ->].
  unfold sample in Hm. simpl in Hm.
  destruct (multinomial _ _) as [[t g]|] eqn:E; [|discriminate].
  inversion Hm; subst.
  exists pen, sup, filt, tok, g. auto 10.
Qed.


Lemma loop_appends n generated s out s' :
  loop_ n generated s = Ok (out, s') ->
  exists suffix, out = generated ++ suffix /\ length suffix = n.
Proof.
  revert generated s. induction n as [|n IH]; simpl; intros g s H.
  - apply ret_Ok in H. destruct H as [-> _]. exists []. now rewrite app_nil_r.
  - apply bind_Ok in H. destruct H as (g1 & s1 & H1 & H2).
    apply step_inv in H1.
    destruct H1 as (? & ? & ? & t & ? & _ & _ & _ & _ & -> & _).
    apply IH in H2. destruct H2 as (suf & -> & Hl).
    exists (t :: suf). rewrite <- app_assoc. simpl. auto.
Qed.

(** Every context the run hands to the model is a window of line 49. *)
Lemma loop_queries n generated s out s' :
  loop_ n generated s = Ok (out, s') ->
  exists windows,
    queries s' = queries s ++ windows /\ length windows = n /\
    Forall (fun w => exists g, w = py_slice_from g (- (n_ctx - 1))) windows.
Proof.
  revert generated s. induction n as [|n IH]; simpl; intros g s H.
  - apply ret_Ok in H. destruct H as [_ ->]. exists [].
    rewrite app_nil_r. auto.
  - apply bind_Ok in H. destruct H as (g1 & s1 & H1 & H2).
    apply step_inv in H1.
    destruct H1 as (? & ? & ? & t & ? & _ & _ & _ & _ & _ & ->).
    apply IH in H2. destruct H2 as (ws & E & Hl & Hw). simpl in E.
    exists (py_slice_from g (- (n_ctx - 1)) :: ws).
    rewrite E, <- app_assoc. simpl. repeat split; auto.
    constructor; eauto.
Qed.

Hypothesis multinomial_support :
  forall probs g i g',
    multinomial probs g = Some (i, g') ->
    exists p, nth_error probs i = Some p /\ 0 < p.

Lemma suppress_unk logits suppressed :
  suppress logits unk = Ok suppressed ->
  nth_error suppressed unk = Some NegInf /\
  length suppressed = length logits.
Proof.
  unfold suppress. destruct (Nat.ltb_spec unk (length logits)); [|discriminate].
  inversion 1. rewrite set_nth_length, length_map. split; auto.
  apply nth_error_set_nth_eq. now rewrite length_map.
Qed.

Lemma step_not_unk generated s generated' s' :
  step_ generated s = Ok (generated', s') ->
  exists next_token,
    generated' = generated ++ [next_token] /\ next_token <> unk.
Proof.
  intros H. apply step_inv in H.
  destruct H as (pen & sup & filt & t & g & _ & Hu & Hf & Hm & -> & _).
  exists t. split; auto. intros ->.
  apply multinomial_support in Hm. destruct Hm as (p & Hp & Hpos).
  apply suppress_unk in Hu. destruct Hu as [Hu _].
  assert (E : nth_error filt unk = Some NegInf).
  { destruct (filtering_entry _ _ _ _ _ _ Hf Hu); auto. }
  rewrite nth_error_softmax, E in Hp. simpl in Hp.
  inversion Hp; subst p. unfold Qdiv in Hpos.
  rewrite Qmult_0_l in Hpos. lra.
Qed.

Lemma loop_not_unk n generated s out s' :
  loop_ n generated s = Ok (out, s') ->
  exists suffix,
    out = generated ++ suffix /\ length suffix = n /\ ~ In unk suffix.
Proof.
  revert generated s. induction n as [|n IH]; simpl; intros g s H.
  - apply ret_Ok in H. destruct H as [-> _]. exists [].
    rewrite app_nil_r. auto.
  - apply bind_Ok in H. destruct H as (g1 & s1 & H1 & H2).
    apply step_not_unk in H1. destruct H1 as (t & -> & Ht).
    apply IH in H2. destruct H2 as (suf & -> & Hl & Hn).
    exists (t :: suf). rewrite <- app_assoc. simpl.
    repeat split; auto. intros [E|I]; auto.
Qed.

End DecoderFacts.

(** ** The repetition penalty of lines 52-53 *)

Section Penalty.

Context {A : Type}.

Lemma index_select_in_range (l : list A) (idx : list nat) (d : A) :
  (forall i, In i idx -> (i < length l)%nat) ->
  index_select l idx = Ok (map (fun i => nth i l d) idx).
Proof.
  induction idx as [|i idx IH]; simpl; intros H; auto.
  rewrite IH by auto.
  destruct (nth_error l i) eqn:E.
  - now rewrite (nth_error_nth _ _ d E).
  - apply nth_error_None in E. specialize (H i (or_introl eq_refl)). lia.
Qed.

Lemma index_select_out_of_range (l : list A) (idx : list nat) :
  (exists i, In i idx /\ (length l <= i)%nat) ->
  index_select l idx = Raise IndexError.
Proof.
  induction idx as [|i idx IH]; simpl; intros (j & Hj & Hl); [easy|].
  destruct Hj as [->|Hj].
  - apply nth_error_None in Hl. now rewrite Hl.
  - rewrite IH by eauto. destruct (nth_error l i); reflexivity.
Qed.

Lemma index_put_length (idx : list nat) (vals l : list A) :
  length (index_put l idx vals) = length l.
Proof.
  revert vals l. induction idx as [|i idx IH]; intros [|v vals] l; simpl; auto.
  rewrite IH. apply set_nth_length.
Qed.



End Penalty.

Lemma apply_repetition_penalty_ok (logits : list Q) (generated : list token)
      (r : Q) :
  (forall t, In t generated -> (t < length logits)%nat) ->
  exists out,
    apply_repetition_penalty logits generated r = Ok out /\
    length out = length logits.
Proof.
  intros Hr. unfold apply_repetition_penalty.
  rewrite (index_select_in_range logits generated 0 Hr).
  eexists. split; [reflexivity|apply index_put_length].
Qed.

Lemma apply_repetition_penalty_raises (logits : list Q) (generated : list token)
      (r : Q) :
  (exists t, In t generated /\ (length logits <= t)%nat) ->
  apply_repetition_penalty logits generated r = Raise IndexError.
Proof.
  intros H. unfold apply_repetition_penalty.
  now rewrite index_select_out_of_range.
Qed.

(** ** Sums of rationals *)

Section Sums.

Lemma sumQ_app (l l' : list Q) : sumQ (l ++ l') == sumQ l + sumQ l'.
Proof.
  induction l as [|x t IH]; simpl; [lra|]. rewrite IH. lra.
Qed.

Lemma sumQ_perm (l l' : list Q) : Permutation l l' -> sumQ l == sumQ l'.
Proof.
  induction 1 as [|x l l' _ IH|x y l|l l' l'' _ IH1 _ IH2]; simpl;
    try lra.
Qed.

Lemma sumQ_nonneg (l : list Q) : Forall (fun x => 0 <= x) l -> 0 <= sumQ l.
Proof. induction 1; simpl; lra. Qed.

Lemma sumQ_map_ext {A} (f g : A -> Q) (l : list A) :
  (forall x, In x l -> f x == g x) ->
  sumQ (map f l) == sumQ (map g l).
Proof.
  induction l as [|x t IH]; simpl; intros H; [lra|].
  rewrite IH by auto. rewrite (H x) by auto. lra.
Qed.

Lemma sumQ_map_perm {A} (f : A -> Q) (l l' : list A) :
  Permutation l l' -> sumQ (map f l) == sumQ (map f l').
Proof. intros H. apply sumQ_perm. now apply Permutation_map. Qed.

End Sums.

(** ** The nucleus branch, entry by entry *)

Lemma shifted_mask (f : Q -> bool) (l : list Q) (acc : Q) :
  l <> [] ->
  f acc :: removelast (map f (cumsum_from acc l)) = map f (before_from acc l).
Proof.
  revert acc. induction l as [|x t IH]; intros acc H; [congruence|].
  destruct t as [|y t]; [reflexivity|].
  change (cumsum_from acc (x :: y :: t))
    with ((acc + x) :: cumsum_from (acc + x) (y :: t)).
  change (before_from acc (x :: y :: t))
    with (acc :: before_from (acc + x) (y :: t)).
  rewrite !map_cons, <- IH by discriminate.
  reflexivity.
Qed.

Lemma sorted_filter_prefix (pre t : list (logit * nat)) (y : logit * nat) :
  StronglySorted Rb (pre ++ y :: t) ->
  filter (fun z => ranks_before z y) (pre ++ y :: t) = pre.
Proof.
  intros H. apply StronglySorted_app_elim in H. destruct H as [H1 H2].
  rewrite filter_app. simpl. rewrite ranks_before_irrefl.
  rewrite (filter_all _ H1), filter_none; [apply app_nil_r|].
  eapply Forall_impl; [|exact H2].
  intros z Hz. now apply ranks_before_asym.
Qed.

Lemma In_combine_seq (l : list logit) (k : nat) (v : logit) (i : nat) :
  In (v, i) (combine l (seq k (length l))) <->
  (k <= i)%nat /\ nth_error l (i - k) = Some v.
Proof.
  revert k. induction l as [|x t IH]; intros k; simpl.
  - split; [tauto|]. intros [_ H]. destruct (i - k)%nat; discriminate.
  - rewrite IH. split.
    + intros [E|[H1 H2]].
      * inversion E; subst. rewrite Nat.sub_diag. auto.
      * split; [lia|]. replace (i - k)%nat with (S (i - S k)) by lia. exact H2.
    + intros [H1 H2]. destruct (Nat.eq_dec i k) as [->|N].
      * rewrite Nat.sub_diag in H2. simpl in H2. inversion H2. auto.
      * right. split; [lia|].
        replace (i - k)%nat with (S (i - S k)) in H2 by lia. exact H2.
Qed.

Lemma In_enumerate (l : list logit) (v : logit) (i : nat) :
  In (v, i) (enumerate l) <-> nth_error l i = Some v.
Proof.
  unfold enumerate. rewrite In_combine_seq, Nat.sub_0_r.
  split; [tauto|]. split; [lia|assumption].
Qed.

Lemma enumerate_NoDup (l : list logit) : NoDup (map snd (enumerate l)).
Proof. rewrite enumerate_snd. apply seq_NoDup. Qed.

Section Removed.

Variables (p : Q) (pr : logit * nat -> Q).

Lemma removed_char (s : list (logit * nat)) :
  forall pre acc,
    StronglySorted Rb (pre ++ s) ->
    NoDup (map snd (pre ++ s)) ->
    acc == sumQ (map pr pre) ->
    forall x, In x s ->
      In (snd x)
         (masked_select (map snd s)
            (map (Qltb p) (before_from acc (map pr s)))) <->
      Qltb p (sumQ (map pr (filter (fun z => ranks_before z x) (pre ++ s))))
      = true.
Proof.
  induction s as [|y t IH]; intros pre acc Hs Hn Hacc x Hx; [easy|].
  assert (Hy : forall z, In z t -> snd z <> snd y).
  { intros z Hz E. rewrite map_app in Hn. apply NoDup_app_remove_l in Hn.
    simpl in Hn. inversion Hn as [|? ? Hni _]; subst.
    apply Hni. rewrite <- E. now apply in_map. }
  set (rest := masked_select (map snd t)
                 (map (Qltb p) (before_from (acc + pr y) (map pr t)))).
  assert (Hsel : masked_select (map snd (y :: t))
                   (map (Qltb p) (before_from acc (map pr (y :: t))))
                 = if Qltb p acc then snd y :: rest else rest)
    by reflexivity.
  rewrite Hsel. clear Hsel.
  destruct Hx as [->|Hx].
  - rewrite sorted_filter_prefix by assumption.
    rewrite <- (Qltb_comp (Qeq_refl p) Hacc).
    assert (Hr : ~ In (snd x) rest).
    { intros I. apply masked_select_In, in_map_iff in I.
      destruct I as (z & E & Hz). now apply (Hy z). }
    destruct (Qltb p acc); simpl; split; auto; try tauto; discriminate.
  - specialize (IH (pre ++ [y]) (acc + pr y)).
    rewrite <- !app_assoc in IH. simpl in IH.
    rewrite <- IH; auto.
    + fold rest. specialize (Hy x Hx).
      destruct (Qltb p acc); simpl; [|tauto].
      split; auto. intros [E|I]; auto. congruence.
    + rewrite map_app, sumQ_app. simpl. rewrite Hacc. lra.
Qed.

End Removed.

Section Nucleus.

Variable expw : Q -> Q.

Lemma softmax_sorted (s : list (logit * nat)) :
  softmax expw (map fst s) =
  map (fun x => weight expw (fst x) / sumQ (map (weight expw) (map fst s))) s.
Proof. unfold softmax. now rewrite !map_map. Qed.

Lemma sorted_total (logits : list logit) :
  sumQ (map (weight expw) (map fst (sort_pairs (enumerate logits)))) ==
  sumQ (map (weight expw) logits).
Proof. apply sumQ_map_perm, sort_desc_perm. Qed.

Lemma sorted_mass_before (logits : list logit) (x : logit * nat) :
  sumQ (map (fun y => weight expw (fst y) /
                      sumQ (map (weight expw)
                              (map fst (sort_pairs (enumerate logits)))))
            (filter (fun z => ranks_before z x)
                    (sort_pairs (enumerate logits))))
  == mass_before expw logits x.
Proof.
  unfold mass_before.
  rewrite (sumQ_map_perm _ (filter_perm _ (sort_pairs_perm (enumerate logits)))).
  apply sumQ_map_ext. intros y _. unfold prob.
  now rewrite sorted_total.
Qed.

(** The nucleus branch replaces exactly the entries whose mass-before
    exceeds [top_p]. *)
Lemma top_p_step_char (logits : list logit) (top_p : Q) (fv : logit) :
  0 < top_p -> logits <> [] ->
  exists out,
    top_p_step expw logits top_p fv = Ok out /\
    length out = length logits /\
    forall i v, nth_error logits i = Some v ->
      nth_error out i =
      Some (if Qltb top_p (mass_before expw logits (v, i)) then fv else v).
Proof.
  intros Hp Hne. unfold top_p_step.
  rewrite (proj2 (Qltb_true 0 top_p) Hp).
  unfold sort_desc. cbv zeta iota beta.
  set (s := sort_pairs (enumerate logits)).
  assert (Hperm : Permutation s (enumerate logits)) by apply sort_pairs_perm.
  assert (Hs : s <> []).
  { intros E. rewrite E in Hperm. apply Permutation_nil in Hperm.
    apply (f_equal (@length _)) in Hperm. unfold enumerate in Hperm.
    rewrite length_combine, length_seq, Nat.min_id in Hperm.
    destruct logits; simpl in *; congruence. }
  rewrite softmax_sorted. unfold cumsum.
  set (pr := fun x : logit * nat =>
               weight expw (fst x) / sumQ (map (weight expw) (map fst s))).
  destruct (map (Qltb top_p) (cumsum_from 0 (map pr s))) as [|b m] eqn:E.
  { exfalso. destruct s; [congruence|discriminate]. }
  assert (E0 : Qltb top_p 0 = false) by (apply Qltb_false; lra).
  assert (Em : false :: removelast (b :: m) =
               map (Qltb top_p) (before_from 0 (map pr s))).
  { rewrite <- E, <- E0. apply shifted_mask.
    destruct s; [congruence|discriminate]. }
  rewrite Em. clear E Em b m.
  eexists. split; [reflexivity|]. split; [apply index_fill_length|].
  intros i v Hi.
  assert (Hin : In (v, i) s).
  { eapply Permutation_in; [symmetry; exact Hperm|]. now apply In_enumerate. }
  pose proof (@removed_char top_p pr s [] 0) as Hc. simpl in Hc.
  specialize (Hc (sort_pairs_sorted logits)).
  rewrite (Permutation_map snd Hperm) in Hc.
  specialize (Hc (enumerate_NoDup logits) (Qeq_refl 0) (v, i) Hin).
  simpl in Hc.
  rewrite <- (Qltb_comp (Qeq_refl top_p) (sorted_mass_before logits (v, i))).
  fold s. fold pr.
  destruct (Qltb top_p (sumQ (map pr (filter _ s)))).
  - apply nth_error_index_fill_in; [now apply Hc|].
    apply nth_error_Some. congruence.
  - rewrite nth_error_index_fill_notin; auto.
    intros I. apply Hc in I. discriminate.
Qed.

End Nucleus.

(** ** The highest-scoring entry *)

Lemma rank_first (logits : list logit) :
  logits <> [] ->
  exists i v,
    nth_error logits i = Some v /\
    (forall j u, nth_error logits j = Some u -> Logit.ltb v u = false) /\
    filter (fun y => ranks_before y (v, i)) (enumerate logits) = [].
Proof.
  intros Hne.
  pose proof (sort_pairs_perm (enumerate logits)) as Hperm.
  pose proof (sort_pairs_sorted logits) as Hs.
  destruct (sort_pairs (enumerate logits)) as [|[v i] rest] eqn:E.
  { apply Permutation_nil in Hperm.
    apply (f_equal (@length _)) in Hperm. unfold enumerate in Hperm.
    rewrite length_combine, length_seq, Nat.min_id in Hperm.
    destruct logits; simpl in *; congruence. }
  exists i, v. split; [|split].
  - apply In_enumerate. eapply Permutation_in; [exact Hperm|]. now left.
  - intros j u Hj. apply In_enumerate in Hj.
    apply (Permutation_in _ (Permutation_sym Hperm)) in Hj.
    destruct Hj as [Ej|Hj].
    + inversion Ej; subst. apply LogitFacts.ltb_irrefl.
    + inversion Hs as [|? ? _ Hall]; subst.
      rewrite Forall_forall in Hall.
      apply (ranks_before_geb _ _ (Hall _ Hj)).
  - pose proof (sorted_filter_prefix [] rest (v, i) Hs) as Hf.
    simpl app in Hf.
    pose proof (filter_perm (fun y => ranks_before y (v, i)) Hperm) as Hp.
    rewrite Hf in Hp. now apply Permutation_nil in Hp.
Qed.

Section KeepsMax.

Variable expw : Q -> Q.

Lemma top_p_step_keeps_max (logits : list logit) (top_p : Q) (fv : logit) :
  logits <> [] ->
  exists out,
    top_p_step expw logits top_p fv = Ok out /\
    length out = length logits /\
    exists i v,
      nth_error logits i = Some v /\
      (forall j u, nth_error logits j = Some u -> Logit.ltb v u = false) /\
      nth_error out i = Some v.
Proof.
  intros Hne.
  destruct (rank_first Hne) as (i & v & Hi & Hmax & Hf).
  destruct (Qlt_le_dec 0 top_p) as [Hp|Hp].
  - destruct (top_p_step_char expw fv Hp Hne) as (out & Ho & Hl & Hc).
    exists out. repeat split; auto. exists i, v. repeat split; auto.
    rewrite (Hc i v Hi). unfold mass_before. rewrite Hf. simpl.
    now rewrite (proj2 (Qltb_false top_p 0)) by lra.
  - exists logits. rewrite top_p_step_zero by assumption.
    repeat split; auto. exists i, v. auto.
Qed.

Lemma top_k_step_threshold_kept (logits : list logit) (top_k : Z) (fv : logit) :
  (0 < top_k)%Z -> logits <> [] ->
  exists j thr,
    nth_error logits j = Some thr /\
    nth_error (top_k_step logits top_k fv) j = Some thr /\
    forall i v, nth_error logits i = Some v ->
      nth_error (top_k_step logits top_k fv) i =
      Some (if Logit.ltb v thr then fv else v).
Proof.
  intros Hk Hne.
  set (k := Z.to_nat (Z.min top_k (Z.of_nat (length logits)))).
  assert (Hk' : (0 < k <= length logits)%nat).
  { unfold k. destruct logits; [congruence|]. simpl length. lia. }
  destruct (kth_largest_spec logits Hk') as (Hin & _ & _).
  apply In_nth_error in Hin. destruct Hin as (j & Hj).
  assert (Hall : forall i v, nth_error logits i = Some v ->
            nth_error (top_k_step logits top_k fv) i =
            Some (if Logit.ltb v (kth_largest logits k) then fv else v)).
  { intros i v Hi. rewrite top_k_step_pos by assumption.
    rewrite nth_error_map, Hi. reflexivity. }
  exists j, (kth_largest logits k). repeat split; auto.
  rewrite (Hall j _ Hj), LogitFacts.ltb_irrefl. reflexivity.
Qed.

(** An entry holding the maximum comes through both branches. *)
Lemma max_entry_survives (logits : list logit) (top_k : Z) (top_p : Q) :
  logits <> [] ->
  exists out,
    top_k_top_p_filtering expw logits top_k top_p NegInf = Ok out /\
    length out = length logits /\
    exists i v,
      nth_error logits i = Some v /\
      (forall j u, nth_error logits j = Some u -> Logit.ltb v u = false) /\
      nth_error out i = Some v.
Proof.
  intros Hne. unfold top_k_top_p_filtering.
  set (y := top_k_step logits top_k NegInf).
  assert (Hly : length y = length logits) by apply top_k_step_length.
  assert (Hy : y <> []).
  { intros E. rewrite E in Hly. destruct logits; simpl in *; congruence. }
  destruct (top_p_step_keeps_max top_p NegInf Hy)
    as (out & Ho & Hl & i & v & Hi & Hmax & Hout).
  exists out. split; [exact Ho|]. split; [congruence|].
  destruct (Z.ltb_spec 0 top_k) as [Hk|Hk].
  - destruct (top_k_step_threshold_kept NegInf Hk Hne)
      as (j & thr & Hj & Hjy & Hall).
    fold y in Hjy, Hall.
    assert (Hx : exists u, nth_error logits i = Some u).
    { destruct (nth_error logits i) eqn:E; eauto.
      apply nth_error_None in E.
      assert (nth_error y i <> None) by congruence.
      apply nth_error_Some in H. lia. }
    destruct Hx as (u & Hu).
    pose proof (Hall i u Hu) as Hyi. rewrite Hi in Hyi.
    pose proof (Hmax j thr Hjy) as Hthr.
    assert (Euv : v = u).
    { inversion Hyi as [E]. destruct (Logit.ltb u thr) eqn:Elt; auto.
      rewrite E in Hthr.
      apply LogitFacts.ltb_fin_r in Elt. destruct thr; discriminate. }
    subst v. exists i, u. repeat split; auto.
    intros j' u' Hj'.
    pose proof (Hall j' u' Hj') as Hyj.
    destruct (Logit.ltb u' thr) eqn:Elt.
    + destruct (Logit.ltb u u') eqn:E'; auto.
      assert (Logit.ltb u thr = true)
        by (eapply LogitFacts.ltb_trans; eauto).
      congruence.
    + exact (Hmax j' u' Hyj).
  - exists i, v. unfold y in Hi. rewrite top_k_step_nonpos in Hi by lia.
    repeat split; auto.
    intros j u Hj. apply (Hmax j u). unfold y.
    now rewrite top_k_step_nonpos by lia.
Qed.

End KeepsMax.

(** ** When an iteration succeeds *)

Lemma sumQ_pos (l : list Q) (x : Q) :
  Forall (fun y => 0 <= y) l -> In x l -> 0 < x -> 0 < sumQ l.
Proof.
  induction 1 as [|y t Hy Ht IH]; simpl; intros Hin Hx; [easy|].
  pose proof (sumQ_nonneg Ht).
  destruct Hin as [->|Hin]; [lra|]. specialize (IH Hin Hx). lra.
Qed.


Section Progress.

Variable expw : Q -> Q.
Hypothesis expw_pos : forall q, 0 < expw q.

Lemma weight_nonneg (v : logit) : 0 <= weight expw v.
Proof. destruct v; simpl; [lra|]. specialize (expw_pos q). lra. Qed.

Lemma weights_nonneg (l : list logit) :
  Forall (fun y => 0 <= y) (map (weight expw) l).
Proof.
  apply Forall_forall. intros y Hy. apply in_map_iff in Hy.
  destruct Hy as (v & <- & _). apply weight_nonneg.
Qed.

Lemma total_pos (l : list logit) (q : Q) :
  In (Fin q) l -> 0 < sumQ (map (weight expw) l).
Proof.
  intros H. eapply sumQ_pos.
  - apply weights_nonneg.
  - apply in_map, H.
  - simpl. apply expw_pos.
Qed.


Variable model : list token -> list Q.
Variable rng : Type.
Variable multinomial : list Q -> rng -> option (nat * rng).
Variable unk : token.
Variable vocab : nat.

Hypothesis model_vocab : forall input_ids, length (model input_ids) = vocab.
Hypothesis unk_vocab : (unk < vocab)%nat.
Hypothesis vocab_other : (2 <= vocab)%nat.
Hypothesis multinomial_support :
  forall probs g i g',
    multinomial probs g = Some (i, g') ->
    exists p, nth_error probs i = Some p /\ 0 < p.
Hypothesis multinomial_total :
  forall probs g,
    (exists i p, nth_error probs i = Some p /\ 0 < p) ->
    exists i g', multinomial probs g = Some (i, g').

Variables (n_ctx : Z) (temperature : Q) (top_k : Z) (top_p : Q)
          (repitition_penalty : Q).




End Progress.

(** ** The output of the nucleus branch as a map *)

Lemma nth_error_combine_seq (l : list logit) (k n : nat) :
  nth_error (combine l (seq k (length l))) n =
  option_map (fun v => (v, (k + n)%nat)) (nth_error l n).
Proof.
  revert k n. induction l as [|x t IH]; intros k [|n]; simpl; auto.
  - now rewrite Nat.add_0_r.
  - rewrite IH. destruct (nth_error t n); simpl; auto.
    now rewrite Nat.add_succ_r.
Qed.

Lemma nth_error_enumerate (l : list logit) (n : nat) :
  nth_error (enumerate l) n = option_map (fun v => (v, n)) (nth_error l n).
Proof. apply nth_error_combine_seq. Qed.

Section NucleusOutput.

Variable expw : Q -> Q.

(** The output of the nucleus branch as a map over the input. *)
Lemma top_p_step_map (logits : list logit) (top_p : Q) :
  0 < top_p -> logits <> [] ->
  top_p_step expw logits top_p NegInf =
  Ok (map (fun x => if Qltb top_p (mass_before expw logits x)
                    then NegInf else fst x)
          (enumerate logits)).
Proof.
  intros Hp Hne.
  destruct (top_p_step_char expw NegInf Hp Hne) as (out & -> & Hl & Hc).
  f_equal. apply nth_error_ext. intros n.
  rewrite nth_error_map, nth_error_enumerate.
  destruct (nth_error logits n) as [v|] eqn:E; simpl.
  - apply (Hc n v E).
  - apply nth_error_None. apply nth_error_None in E. lia.
Qed.

End NucleusOutput.

(** ** The concrete instance is well behaved *)

Module DemoFacts.

Lemma demo_expw_pos (q : Q) : 0 < Demo.expw q.
Proof.
  unfold Demo.expw.
  assert (Hsq : 0 <= q * q).
  { destruct (Qlt_le_dec q 0).
    - setoid_replace (q * q) with ((- q) * (- q)) by ring.
      apply Qmult_le_0_compat; lra.
    - apply Qmult_le_0_compat; lra. }
  destruct (Qle_bool 0 q) eqn:E.
  - apply Qle_bool_iff in E. lra.
  - apply Qle_bool_false in E. apply Qinv_lt_0_compat. lra.
Qed.

Lemma first_positive_spec (probs : list Q) (k i : nat) :
  Demo.first_positive probs k = Some i ->
  (k <= i)%nat /\ exists p, nth_error probs (i - k) = Some p /\ 0 < p.
Proof.
  revert k. induction probs as [|p t IH]; intros k; simpl; [discriminate|].
  destruct (Qltb 0 p) eqn:E.
  - inversion 1; subst. rewrite Nat.sub_diag. simpl.
    apply Qltb_true in E. split; eauto.
  - intros H. apply IH in H. destruct H as (Hk & p' & Hp & Hpos).
    split; [lia|]. exists p'. split; auto.
    replace (i - k)%nat with (S (i - S k)) by lia. exact Hp.
Qed.


Lemma demo_multinomial_support probs (g : unit) i g' :
  Demo.multinomial probs g = Some (i, g') ->
  exists p, nth_error probs i = Some p /\ 0 < p.
Proof.
  unfold Demo.multinomial.
  destruct (Demo.first_positive probs 0) eqn:E; [|discriminate].
  inversion 1; subst. apply first_positive_spec in E.
  rewrite Nat.sub_0_r in E. tauto.
Qed.


Lemma demo_model_vocab (v : nat) (input_ids : list token) :
  length (Demo.model v input_ids) = v.
Proof. unfold Demo.model. now rewrite length_map, length_seq. Qed.

End DemoFacts.

(** ** What [generate] returns and what it asks of the model *)

(** For [n_ctx >= 2] every context handed to the model has at most
    [n_ctx - 1] tokens. *)
Lemma generate_window_bound
  (expw : Q -> Q) (model : list token -> list Q) (rng : Type)
  (multinomial : list Q -> rng -> option (nat * rng)) (unk : token)
  (context : list token) (length_ : Z) (n_ctx : Z) (temperature : Q)
  (top_k : Z) (top_p : Q) (repitition_penalty : Q) (s : state rng) out s' :
  (2 <= n_ctx)%Z ->
  generate expw model multinomial unk context length_ n_ctx temperature
           top_k top_p repitition_penalty s = Ok (out, s') ->
  exists windows,
    queries s' = queries s ++ windows /\
    Forall (fun w => (Z.of_nat (length w) <= n_ctx - 1)%Z) windows.
Proof.
  intros Hn H. unfold generate in H. apply loop_queries in H.
  destruct H as (ws & E & _ & Hw). exists ws. split; auto.
  eapply Forall_impl; [|exact Hw].
  intros w (g & ->). now apply window_bound.
Qed.

(** Whenever [generate] returns, it returns the prefix followed by one
    token per iteration, and it has called the model once per iteration. *)
Lemma generate_appends
  (expw : Q -> Q) (model : list token -> list Q) (rng : Type)
  (multinomial : list Q -> rng -> option (nat * rng)) (unk : token)
  (context : list token) (length_ : Z) (n_ctx : Z) (temperature : Q)
  (top_k : Z) (top_p : Q) (repitition_penalty : Q) (s : state rng) out s' :
  generate expw model multinomial unk context length_ n_ctx temperature
           top_k top_p repitition_penalty s = Ok (out, s') ->
  length out = (length context + Z.to_nat length_)%nat /\
  firstn (length context) out = context /\
  length (queries s') = (length (queries s) + Z.to_nat length_)%nat.
Proof.
  intros H. unfold generate in H.
  destruct (loop_appends _ _ _ _ _ _ _ _ _ _ _ _ H) as (suf & -> & Hl).
  destruct (loop_queries _ _ _ _ _ _ _ _ _ _ _ _ H) as (ws & -> & Hw & _).
  rewrite !length_app, firstn_app, Nat.sub_diag, firstn_all. simpl.
  rewrite app_nil_r. auto.
Qed.

(** ** A run under a configuration the specification calls invalid *)

Lemma filtering_negative_top_k expw logits top_k top_p fv :
  (top_k < 0)%Z ->
  top_k_top_p_filtering expw logits top_k top_p fv =
  top_k_top_p_filtering expw logits 0 top_p fv.
Proof.
  intros H. unfold top_k_top_p_filtering.
  now rewrite !top_k_step_nonpos by lia.
Qed.

Lemma filtering_negative_top_p expw logits top_k top_p fv :
  top_p < 0 ->
  top_k_top_p_filtering expw logits top_k top_p fv =
  top_k_top_p_filtering expw logits top_k 0 fv.
Proof.
  intros H. unfold top_k_top_p_filtering.
  now rewrite !top_p_step_zero by lra.
Qed.

Lemma loop_filter_ext
  (expw : Q -> Q) (model : list token -> list Q) (rng : Type)
  (multinomial : list Q -> rng -> option (nat * rng)) (unk : token)
  (n_ctx : Z) (temperature : Q) (top_k top_k' : Z) (top_p top_p' : Q)
  (repitition_penalty : Q) :
  (forall l, top_k_top_p_filtering expw l top_k top_p NegInf =
             top_k_top_p_filtering expw l top_k' top_p' NegInf) ->
  forall n generated s,
    loop expw model multinomial unk n_ctx temperature top_k top_p
         repitition_penalty n generated s =
    loop expw model multinomial unk n_ctx temperature top_k' top_p'
         repitition_penalty n generated s.
Proof.
  intros Hf. induction n as [|n IH]; intros g s; cbn [loop]; auto.
  assert (Hs : step expw model multinomial unk n_ctx temperature top_k top_p
                    repitition_penalty g s =
               step expw model multinomial unk n_ctx temperature top_k' top_p'
                    repitition_penalty g s).
  { unfold step, bind, call_model, lift, ret.
    destruct (apply_repetition_penalty _ _ _); auto.
    destruct (suppress _ _); auto.
    now rewrite Hf. }
  unfold bind. rewrite Hs.
  destruct (step expw model multinomial unk n_ctx temperature top_k' top_p'
                 repitition_penalty g s) as [[g1 s1]|e];
    [apply IH|reflexivity].
Qed.

(** ** Top-k, counted *)

Lemma top_k_count (thr fv : logit) (logits : list logit) :
  (countb (fun v => negb (Logit.ltb v thr)) logits <=
   countb (not_sentinel fv)
          (map (fun v => if Logit.ltb v thr then fv else v) logits) +
   countb (fun v => Logit.eqb v fv) logits)%nat.
Proof.
  unfold countb, not_sentinel.
  induction logits as [|v t IH]; simpl; [lia|].
  destruct (Logit.ltb v thr); simpl.
  - destruct (negb (Logit.eqb fv fv)), (Logit.eqb v fv); simpl; lia.
  - destruct (Logit.eqb v fv); simpl; lia.
Qed.

(** ** The nucleus, index by index *)

Section NucleusIndex.

Variable expw : Q -> Q.
Variable logits : list logit.
Variable top_p : Q.

Let g := fun x : logit * nat =>
           if Qltb top_p (mass_before expw logits x) then NegInf else fst x.

Lemma is_fin_kept (x : logit * nat) :
  Logit.is_fin (g x) = kept expw logits top_p x.
Proof.
  unfold g, kept.
  destruct (Qltb top_p (mass_before expw logits x)); simpl.
  - now rewrite andb_false_r.
  - now rewrite andb_true_r.
Qed.

Lemma survives_kept (i : nat) :
  survives (map g (enumerate logits)) i <->
  exists v, nth_error logits i = Some v /\
            kept expw logits top_p (v, i) = true.
Proof.
  unfold survives. rewrite nth_error_map, nth_error_enumerate.
  destruct (nth_error logits i) as [v|]; simpl.
  - split.
    + intros (q & E). exists v. split; auto.
      rewrite <- is_fin_kept. inversion E as [E']. now rewrite E'.
    + intros (v' & E & H). inversion E; subst v'.
      rewrite <- is_fin_kept in H.
      destruct (g (v, i)) as [|q]; [discriminate|]. eauto.
  - split; [intros (q & E); discriminate|intros (v & E & _); discriminate].
Qed.

End NucleusIndex.

(** ** Ranks and thresholds *)

Lemma countb_impl {A} (f g : A -> bool) (l : list A) :
  (forall x, In x l -> f x = true -> g x = true) ->
  (countb f l <= countb g l)%nat.
Proof.
  unfold countb. induction l as [|x t IH]; simpl; intros H; [lia|].
  specialize (IH (fun y Hy => H y (or_intror Hy))).
  specialize (H x (or_introl eq_refl)).
  destruct (f x); [rewrite H by reflexivity|destruct (g x)]; simpl; lia.
Qed.

Lemma countb_map {A B} (f : B -> bool) (h : A -> B) (l : list A) :
  countb f (map h l) = countb (fun x => f (h x)) l.
Proof.
  unfold countb. induction l as [|x t IH]; simpl; auto.
  destruct (f (h x)); simpl; congruence.
Qed.

Lemma countb_full {A} (f : A -> bool) (l : list A) :
  (length l <= countb f l)%nat -> Forall (fun x => f x = true) l.
Proof.
  unfold countb. induction l as [|x t IH]; simpl; intros H; constructor.
  - destruct (f x); auto. pose proof (filter_length_le f t). lia.
  - apply IH. destruct (f x); simpl in H; [lia|].
    pose proof (filter_length_le f t). lia.
Qed.

(** Two values that both sit at rank [k] are not ordered the wrong way:
    if at least [k] entries are at least [w] and fewer than [k] entries
    exceed [u], then [u] is not below [w]. *)
Lemma threshold_order (l : list logit) (k : nat) (u w : logit) :
  (k <= countb (fun v => negb (Logit.ltb v w)) l)%nat ->
  (countb (fun v => Logit.ltb u v) l < k)%nat ->
  Logit.ltb u w = false.
Proof.
  intros Hw Hu. destruct (Logit.ltb u w) eqn:E; auto.
  assert (countb (fun v => negb (Logit.ltb v w)) l
          <= countb (fun v => Logit.ltb u v) l)%nat.
  { apply countb_impl. intros v _ Hv. apply negb_true_iff in Hv.
    eapply LogitFacts.ltb_geb_trans; eauto. }
  lia.
Qed.

(** The top-k branch, when it runs, cuts at a threshold of rank
    [min(top_k, n)]. *)
Lemma top_k_step_threshold (logits : list logit) (top_k : Z) (fv : logit) :
  (0 < top_k)%Z -> logits <> [] ->
  exists thr,
    In thr logits /\
    (Z.to_nat (Z.min top_k (Z.of_nat (length logits)))
     <= countb (fun v => negb (Logit.ltb v thr)) logits)%nat /\
    (countb (fun v => Logit.ltb thr v) logits
     < Z.to_nat (Z.min top_k (Z.of_nat (length logits))))%nat /\
    top_k_step logits top_k fv =
    map (fun v => if Logit.ltb v thr then fv else v) logits.
Proof.
  intros Hk Hne.
  set (ke := Z.to_nat (Z.min top_k (Z.of_nat (length logits)))).
  assert (Hke : (0 < ke <= length logits)%nat).
  { unfold ke. destruct logits; [congruence|]. simpl length. lia. }
  destruct (kth_largest_spec logits Hke) as (Hin & Hge & Hgt).
  exists (kth_largest logits ke). repeat split; auto.
  now apply top_k_step_pos.
Qed.

Lemma map_id_on {A} (f : A -> A) (l : list A) :
  Forall (fun x => f x = x) l -> map f l = l.
Proof. induction 1 as [|x t Hx _ IH]; simpl; congruence. Qed.

Lemma survives_map_cut (thr : logit) (l : list logit) (i : nat) :
  survives (map (fun v => if Logit.ltb v thr then NegInf else v) l) i <->
  exists q, nth_error l i = Some (Fin q) /\ Logit.ltb (Fin q) thr = false.
Proof.
  unfold survives. rewrite nth_error_map.
  destruct (nth_error l i) as [v|]; cbn [option_map].
  - split.
    + intros (q & E). destruct (Logit.ltb v thr) eqn:El; [discriminate|].
      inversion E; subst. eauto.
    + intros (q & E & Hq). inversion E; subst. rewrite Hq. eauto.
  - split; [intros (q & E); discriminate|intros (q & E & _); discriminate].
Qed.

(** ** Any order of ties, any rounding *)

Section MaskFacts.

Context {A : Type}.

Lemma nth_error_removelast (l : list A) (j : nat) :
  (S j < length l)%nat -> nth_error (removelast l) j = nth_error l j.
Proof.
  revert j. induction l as [|x t IH]; intros j H; [simpl in H; lia|].
  destruct t as [|y t]; [simpl in H; lia|].
  change (removelast (x :: y :: t)) with (x :: removelast (y :: t)).
  destruct j as [|j]; [reflexivity|].
  cbn [nth_error]. apply IH. simpl in *. lia.
Qed.

Lemma In_masked_select (l : list A) (m : list bool) (j : nat) (x : A) :
  NoDup l -> nth_error l j = Some x ->
  In x (masked_select l m) <-> nth_error m j = Some true.
Proof.
  revert m j. induction l as [|y t IH]; intros m j Hn Hj.
  - destruct j; discriminate.
  - inversion Hn as [|? ? Hy Ht]; subst.
    destruct m as [|b m].
    + simpl. destruct j; simpl; split; try tauto; discriminate.
    + destruct j as [|j].
      * simpl in Hj. inversion Hj; subst. simpl.
        destruct b; simpl.
        -- split; auto.
        -- split; [|discriminate]. intros I. apply masked_select_In in I.
           contradiction.
      * simpl in Hj.
        assert (x <> y).
        { intros ->. apply Hy. eapply nth_error_In; eauto. }
        cbn [nth_error]. rewrite <- (IH m j Ht Hj).
        simpl. destruct b; simpl; [|tauto].
        split; [intros [E|I]; [congruence|auto]|auto].
Qed.

Lemma Forall2_nth_error {B} (R : A -> B -> Prop) (l : list A) (l' : list B) :
  length l = length l' ->
  (forall j a b, nth_error l j = Some a -> nth_error l' j = Some b -> R a b) ->
  Forall2 R l l'.
Proof.
  revert l'. induction l as [|x t IH]; intros [|y t'] Hl H;
    simpl in Hl; try discriminate; constructor.
  - apply (H 0%nat); reflexivity.
  - apply IH; [lia|]. intros j a b Ha Hb. apply (H (S j)); assumption.
Qed.

Lemma StronglySorted_nth (R : A -> A -> Prop) (l : list A) (j j' : nat) a b :
  StronglySorted R l -> (j < j')%nat ->
  nth_error l j = Some a -> nth_error l j' = Some b -> R a b.
Proof.
  intros Hs. revert j j'. induction Hs as [|x t _ IH Hx]; intros j j' Hlt Ha Hb.
  - destruct j; discriminate.
  - destruct j' as [|j']; [lia|]. simpl in Hb.
    destruct j as [|j].
    + simpl in Ha. inversion Ha; subst.
      rewrite Forall_forall in Hx. apply Hx. eapply nth_error_In; eauto.
    + simpl in Ha. apply (IH j j'); auto. lia.
Qed.

End MaskFacts.

Lemma map_nth_seq (l : list logit) :
  map (fun i => nth i l NegInf) (seq 0 (length l)) = l.
Proof.
  induction l as [|x t IH]; simpl; auto.
  f_equal. rewrite <- seq_shift, map_map. exact IH.
Qed.

Lemma eqb_of_order (a b : logit) :
  Logit.ltb a b = false -> Logit.ltb b a = false -> Logit.eqb a b = true.
Proof. logit_order. Qed.

Lemma eqb_sym (a b : logit) : Logit.eqb a b = true -> Logit.eqb b a = true.
Proof. logit_order. Qed.

Lemma eqb_refl (a : logit) : Logit.eqb a a = true.
Proof. logit_order. Qed.

Lemma eqb_NegInf_l (b : logit) : Logit.eqb NegInf b = true -> b = NegInf.
Proof. destruct b; simpl; [reflexivity|discriminate]. Qed.

(** The entry at position [j] of a descending list: at most [j] entries
    exceed it and more than [j] entries are at least as large. *)
Lemma sorted_rank_counts (l : list logit) (j : nat) (x : logit) :
  StronglySorted desc l -> nth_error l j = Some x ->
  (countb (fun v => Logit.ltb x v) l <= j)%nat /\
  (j < countb (fun v => negb (Logit.ltb v x)) l)%nat.
Proof.
  intros Hs Hj.
  destruct (nth_error_split l j Hj) as (l1 & l2 & -> & Hlen).
  apply StronglySorted_app_elim in Hs. destruct Hs as [H1 H2].
  split.
  - rewrite countb_app.
    rewrite (@countb_none _ (fun v => Logit.ltb x v) (x :: l2)).
    + pose proof (countb_le_length (fun v => Logit.ltb x v) l1). lia.
    + constructor; [apply LogitFacts.ltb_irrefl|exact H2].
  - rewrite countb_app.
    rewrite (@countb_all _ (fun v => negb (Logit.ltb v x)) l1).
    + unfold countb at 1. simpl. rewrite LogitFacts.ltb_irrefl. simpl. lia.
    + eapply Forall_impl; [|exact H1]. unfold desc. simpl.
      intros a ->. reflexivity.
Qed.

(** Two descending arrangements of the same entries agree position by
    position up to ties. *)
Lemma sorted_perm_tied (l1 l2 : list logit) (j : nat) (x y : logit) :
  StronglySorted desc l1 -> StronglySorted desc l2 -> Permutation l1 l2 ->
  nth_error l1 j = Some x -> nth_error l2 j = Some y ->
  Logit.eqb x y = true.
Proof.
  intros H1 H2 Hp Hx Hy.
  destruct (@sorted_rank_counts l1 j x H1 Hx) as [Ax Bx].
  destruct (@sorted_rank_counts l2 j y H2 Hy) as [Ay By].
  apply eqb_of_order.
  - apply (@threshold_order l2 (S j)); [lia|].
    rewrite <- (countb_perm _ Hp). lia.
  - apply (@threshold_order l1 (S j)); [lia|].
    rewrite (countb_perm _ Hp). lia.
Qed.

Lemma cut_desc (thr a b : logit) :
  desc a b ->
  desc (if Logit.ltb a thr then NegInf else a)
       (if Logit.ltb b thr then NegInf else b).
Proof.
  unfold desc. intros H.
  destruct (Logit.ltb a thr) eqn:Ea, (Logit.ltb b thr) eqn:Eb; auto.
  - rewrite (LogitFacts.geb_ltb_trans _ _ _ H Ea) in Eb. discriminate.
  - apply LogitFacts.ltb_NegInf_r.
Qed.

(** *** What follows from the contract of the sort *)

Section SortContract.

Variable sort : list logit -> list logit * list nat.
Hypothesis sort_ok : sort_contract sort.

Lemma sort_snd_length (l : list logit) : length (snd (sort l)) = length l.
Proof.
  rewrite (Permutation_length (sort_indices sort_ok l)). apply length_seq.
Qed.

Lemma sort_fst_length (l : list logit) : length (fst (sort l)) = length l.
Proof. rewrite (sort_values sort_ok), length_map. apply sort_snd_length. Qed.

Lemma sort_NoDup (l : list logit) : NoDup (snd (sort l)).
Proof.
  eapply Permutation_NoDup; [symmetry; apply (sort_indices sort_ok)|].
  apply seq_NoDup.
Qed.

Lemma sort_index_range (l : list logit) (j i : nat) :
  nth_error (snd (sort l)) j = Some i -> (i < length l)%nat.
Proof.
  intros H. apply nth_error_In in H.
  apply (Permutation_in _ (sort_indices sort_ok l)) in H.
  apply in_seq in H. lia.
Qed.

Lemma sort_value_at (l : list logit) (j i : nat) :
  nth_error (snd (sort l)) j = Some i ->
  nth_error (fst (sort l)) j = nth_error l i.
Proof.
  intros H. rewrite (sort_values sort_ok), nth_error_map, H. simpl.
  symmetry. apply nth_error_nth'. eapply sort_index_range; eauto.
Qed.

Lemma sort_position (l : list logit) (i : nat) :
  (i < length l)%nat -> exists j, nth_error (snd (sort l)) j = Some i.
Proof.
  intros H. apply In_nth_error.
  eapply Permutation_in; [symmetry; apply (sort_indices sort_ok)|].
  apply in_seq. lia.
Qed.

Lemma sort_perm (l : list logit) : Permutation (fst (sort l)) l.
Proof.
  rewrite (sort_values sort_ok).
  etransitivity; [apply Permutation_map, (sort_indices sort_ok)|].
  now rewrite map_nth_seq.
Qed.


Section Arithmetic.

Variable softmax : list logit -> list Q.
Variable cumsum : list Q -> list Q.
Variable gt : Q -> Q -> bool.
Hypothesis softmax_len : forall l, length (softmax l) = length l.
Hypothesis cumsum_len : forall l, length (cumsum l) = length l.

(** The nucleus branch, sorted position by sorted position: the entry
    that the sort puts at position [j] is replaced exactly when the shifted
    mask is set there. *)
Lemma top_p_step_positions (logits : list logit) (top_p : Q) (fv : logit) :
  0 < top_p -> logits <> [] ->
  exists out,
    Torch.top_p_step sort softmax cumsum gt logits top_p fv = Ok out /\
    length out = length logits /\
    forall j i, nth_error (snd (sort logits)) j = Some i ->
      nth_error out i =
      if removed_at gt top_p (cumsum (softmax (fst (sort logits)))) j
      then Some fv else nth_error logits i.
Proof.
  intros Hp Hne. unfold Torch.top_p_step.
  rewrite (proj2 (Qltb_true 0 top_p) Hp).
  pose proof (sort_snd_length logits) as Hls.
  pose proof (sort_fst_length logits) as Hlf.
  pose proof (sort_NoDup logits) as Hnd.
  pose proof (@sort_index_range logits) as Hr.
  destruct (sort logits) as [vs idx]. simpl in *.
  set (c := cumsum (softmax vs)).
  assert (Hlc : length c = length logits).
  { unfold c. now rewrite cumsum_len, softmax_len. }
  destruct (map (fun c0 => gt c0 top_p) c) as [|b m] eqn:E.
  { exfalso. apply (f_equal (@length _)) in E. rewrite length_map, Hlc in E.
    destruct logits; simpl in E; [congruence|discriminate]. }
  eexists. split; [reflexivity|]. split; [apply index_fill_length|].
  intros j i Hj.
  assert (Hjl : (j < length logits)%nat).
  { rewrite <- Hls. apply nth_error_Some. congruence. }
  assert (Hm : nth_error (false :: removelast (b :: m)) j
               = Some (removed_at gt top_p c j)).
  { destruct j as [|j]; [reflexivity|].
    cbn [nth_error removed_at].
    rewrite nth_error_removelast.
    - rewrite <- E, nth_error_map.
      rewrite (nth_error_nth' c 0) by lia. reflexivity.
    - rewrite <- E, length_map. lia. }
  pose proof (In_masked_select (false :: removelast (b :: m)) j Hnd Hj) as Hin.
  rewrite Hm in Hin.
  destruct (removed_at gt top_p c j).
  - apply nth_error_index_fill_in; [now apply Hin|]. eapply Hr; eauto.
  - apply nth_error_index_fill_notin. intros I. apply Hin in I. discriminate.
Qed.

End Arithmetic.

End SortContract.

(** *** The cut of the nucleus *)

Section Cut.

Variable gt : Q -> Q -> bool.
Hypothesis gt_mono :
  forall c c' top_p, c <= c' -> gt c top_p = true -> gt c' top_p = true.





End Cut.

(** *** Sorts that meet the contract *)

Lemma StronglySorted_weaken {A} (R R' : A -> A -> Prop) (l : list A) :
  (forall x y, R x y -> R' x y) -> StronglySorted R l -> StronglySorted R' l.
Proof.
  intros H. induction 1 as [|x t _ IH Hx]; constructor; auto.
  eapply Forall_impl; [|exact Hx]. auto.
Qed.

Lemma sort_contract_of_pairs (f : list (logit * nat) -> list (logit * nat)) :
  (forall l, Permutation (f (enumerate l)) (enumerate l)) ->
  (forall l, StronglySorted (fun a b => desc (fst a) (fst b))
                            (f (enumerate l))) ->
  sort_contract (fun l => (map fst (f (enumerate l)), map snd (f (enumerate l)))).
Proof.
  intros Hp Hs. constructor; intros l; simpl.
  - rewrite <- enumerate_snd. apply Permutation_map, Hp.
  - rewrite map_map. apply map_ext_in. intros [v i] Hin. simpl.
    apply (Permutation_in _ (Hp l)) in Hin. apply In_enumerate in Hin.
    symmetry. now apply nth_error_nth.
  - eapply StronglySorted_map; [|apply Hs]. auto.
Qed.

Lemma sort_desc_contract : sort_contract sort_desc.
Proof.
  apply (sort_contract_of_pairs sort_pairs).
  - intros l. apply sort_pairs_perm.
  - intros l. eapply StronglySorted_weaken; [|apply sort_pairs_sorted].
    intros x y. apply ranks_before_geb.
Qed.

Lemma descending_b_sorted (l : list logit) :
  descending_b l = true -> StronglySorted desc l.
Proof.
  intros H. apply Sorted_StronglySorted.
  - intros a b c. apply LogitFacts.geb_trans.
  - induction l as [|a t IH]; [constructor|].
    destruct t as [|b t]; [repeat constructor|].
    cbn [descending_b] in H. apply andb_true_iff in H. destruct H as [Hab Ht].
    constructor; [now apply IH|].
    constructor. unfold desc. now apply negb_true_iff.
Qed.

Lemma permutation_b_perm (idx : list nat) (n : nat) :
  permutation_b idx n = true -> Permutation idx (seq 0 n).
Proof.
  unfold permutation_b. intros H. apply andb_true_iff in H.
  destruct H as [Hl Hin]. apply Nat.eqb_eq in Hl.
  symmetry. apply NoDup_Permutation_bis.
  - apply seq_NoDup.
  - rewrite length_seq. lia.
  - intros i Hi. rewrite forallb_forall in Hin. specialize (Hin i Hi).
    apply existsb_exists in Hin. destruct Hin as (j & Hj & E).
    apply Nat.eqb_eq in E. now subst.
Qed.

Lemma sort_unstable_contract : sort_contract sort_unstable.
Proof.
  constructor; intros l; unfold sort_unstable;
    destruct (permutation_b _ _ && descending_b _) eqn:E;
    try apply andb_true_iff in E; cbn [fst snd].
  - now apply permutation_b_perm.
  - apply (sort_indices sort_desc_contract).
  - reflexivity.
  - apply (sort_values sort_desc_contract).
  - now apply descending_b_sorted.
  - apply (sort_descending sort_desc_contract).
Qed.

(** *** The exact arithmetic meets the contract *)

Lemma Qdiv_nonneg (a b : Q) : 0 <= a -> 0 <= b -> 0 <= a / b.
Proof.
  intros Ha Hb. unfold Qdiv. apply Qmult_le_0_compat; auto.
  now apply Qinv_le_0_compat.
Qed.

Lemma cumsum_from_length (acc : Q) (l : list Q) :
  length (cumsum_from acc l) = length l.
Proof. revert acc. induction l as [|x t IH]; intros acc; simpl; auto. Qed.



Lemma cumsum_from_monotone (l l' : list Q) (acc acc' : Q) (j : nat) :
  length l = length l' -> acc <= acc' ->
  (forall i, (i <= j)%nat -> nth i l 0 <= nth i l' 0) ->
  nth j (cumsum_from acc l) 0 <= nth j (cumsum_from acc' l') 0.
Proof.
  revert l' acc acc' j. induction l as [|x t IH]; intros [|y t'] acc acc' j Hl Ha H;
    simpl in Hl; try discriminate.
  - destruct j; simpl; lra.
  - pose proof (H 0%nat (Nat.le_0_l j)) as H0. simpl in H0.
    destruct j as [|j]; simpl; [lra|].
    apply IH; [lia|lra|].
    intros i Hi. apply (H (S i)). lia.
Qed.

Lemma Forall2_nth_error_r {A B} (R : A -> B -> Prop) (l : list A) (l' : list B)
      (i : nat) (b : B) :
  Forall2 R l l' -> nth_error l' i = Some b ->
  exists a, nth_error l i = Some a /\ R a b.
Proof.
  intros H. revert i. induction H as [|x y t t' Hxy _ IH]; intros i Hi.
  - destruct i; discriminate.
  - destruct i as [|i]; simpl in *.
    + inversion Hi; subst. eauto.
    + now apply IH.
Qed.

Section ExactArithmetic.

Variable expw : Q -> Q.
Hypothesis expw_pos : forall q, 0 < expw q.
Hypothesis expw_proper : forall x y, x == y -> expw x == expw y.

Lemma weight_eqb (v v' : logit) :
  Logit.eqb v v' = true -> weight expw v == weight expw v'.
Proof.
  destruct v, v'; simpl; intros H; try discriminate; [reflexivity|].
  apply Qeq_bool_iff in H. now apply expw_proper.
Qed.

Lemma masks_total (l l' : list logit) :
  masks l l' ->
  sumQ (map (weight expw) l') <= sumQ (map (weight expw) l).
Proof.
  induction 1 as [|v v' t t' Hv _ IH]; simpl; [lra|].
  assert (weight expw v' <= weight expw v).
  { destruct Hv as [->|E].
    - simpl. apply (weight_nonneg expw expw_pos).
    - rewrite (weight_eqb _ _ E). lra. }
  lra.
Qed.

Lemma exact_library_contract : library_contract (softmax expw) cumsum Qgtb.
Proof.
  constructor.
  - intros l. unfold softmax. now rewrite !length_map.
  - intros l. apply cumsum_from_length.
  - intros c c' p Hc H. unfold Qgtb in *.
    apply Qltb_true in H. apply Qltb_true. lra.
Qed.


Lemma exact_masking_contract : masking_contract (softmax expw) cumsum.
Proof.
  constructor.
  - intros l l' i q Hm Hi.
    destruct (Forall2_nth_error_r i Hm Hi) as (v & Hv & [E|E]); [discriminate|].
    rewrite (nth_error_nth _ _ 0
               (eq_trans (nth_error_softmax expw l i)
                         (f_equal (option_map _) Hv))).
    rewrite (nth_error_nth _ _ 0
               (eq_trans (nth_error_softmax expw l' i)
                         (f_equal (option_map _) Hi))).
    pose proof (weight_eqb _ _ E) as Ew.
    pose proof (masks_total Hm) as Ht.
    assert (Hpos' : 0 < sumQ (map (weight expw) l')).
    { eapply (total_pos expw expw_pos), nth_error_In, Hi. }
    set (T := sumQ (map (weight expw) l)) in *.
    set (T' := sumQ (map (weight expw) l')) in *.
    assert (Hw : 0 <= weight expw v) by apply (weight_nonneg expw expw_pos).
    rewrite Ew in *.
    set (w := weight expw (Fin q)) in *.
    apply Qle_shift_div_l; [assumption|].
    assert (Hd : 0 <= w / T) by (apply Qdiv_nonneg; lra).
    assert (Hq : w / T * T == w) by (field; lra).
    assert (w / T * T' <= w / T * T).
    { rewrite !(Qmult_comm (w / T)). apply Qmult_le_compat_r; assumption. }
    lra.
  - intros l l' j Hl H. apply cumsum_from_monotone; auto. lra.
Qed.

End ExactArithmetic.

Lemma demo_expw_proper (x y : Q) : x == y -> Demo.expw x == Demo.expw y.
Proof.
  intros E. unfold Demo.expw.
  assert (Eb : Qle_bool 0 x = Qle_bool 0 y).
  { apply eq_true_iff_eq. rewrite !Qle_bool_iff. now rewrite E. }
  rewrite Eb. destruct (Qle_bool 0 y); now rewrite E.
Qed.

Lemma demo_library_contract :
  library_contract (softmax Demo.expw) cumsum Qgtb.
Proof. apply exact_library_contract. Qed.


Lemma demo_masking_contract : masking_contract (softmax Demo.expw) cumsum.
Proof.
  apply exact_masking_contract.
  - exact DemoFacts.demo_expw_pos.
  - exact demo_expw_proper.
Qed.

(** With the stable sort and the exact arithmetic the filter over the
    contract is the filter of the sections above. *)
Lemma torch_filtering_exact (expw : Q -> Q) (logits : list logit) (top_k : Z)
      (top_p : Q) (fv : logit) :
  Torch.top_k_top_p_filtering sort_desc (softmax expw) cumsum Qgtb
    logits top_k top_p fv
  = top_k_top_p_filtering expw logits top_k top_p fv.
Proof. reflexivity. Qed.

Lemma torch_top_p_step_zero sort softmax cumsum gt (logits : list logit)
      (top_p : Q) (fv : logit) :
  top_p <= 0 ->
  Torch.top_p_step sort softmax cumsum gt logits top_p fv = Ok logits.
Proof.
  intros H. unfold Torch.top_p_step.
  apply Qltb_false in H. now rewrite H.
Qed.


(** * The claims *)




(** C2 as stated fails on a vector that already holds the sentinel, as
    the one [generate] passes does at the unknown id: the second largest of
    [[1, -inf]] is [-inf], nothing lies below it, and one entry, not two,
    differs from the sentinel. *)
Lemma top_k_sentinel_input_counterexample :
  exists out,
    top_k_top_p_filtering Demo.expw [Fin 1; NegInf] 2 0 NegInf = Ok out /\
    (countb (not_sentinel NegInf) out < 2)%nat.
Proof. exists [Fin 1; NegInf]. split; [reflexivity|]. vm_compute. lia. Qed.

(** C2, amended.  For [0 < k <= vocabulary size] and [top_p = 0] the
    filter replaces exactly the entries strictly below the k-th largest
    logit; entries tied with it are kept and every retained entry is
    unchanged.  At least [k] entries are retained, so the entries that
    differ from [filter_value] number at least [k] less the input entries
    that already equal [filter_value]. *)
Theorem top_k_survivors
  (expw : Q -> Q) (logits : list logit) (k : Z) (filter_value : logit) :
  (0 < k <= Z.of_nat (length logits))%Z ->
  exists out thr,
    top_k_top_p_filtering expw logits k 0 filter_value = Ok out /\
    length out = length logits /\
    In thr logits /\
    (Z.to_nat k <= countb (fun v => negb (Logit.ltb v thr)) logits)%nat /\
    (countb (fun v => Logit.ltb thr v) logits < Z.to_nat k)%nat /\
    (forall i v, nth_error logits i = Some v ->
       nth_error out i = Some (if Logit.ltb v thr then filter_value else v)) /\
    (Z.to_nat k <= countb (not_sentinel filter_value) out +
                   countb (fun v => Logit.eqb v filter_value) logits)%nat.
Proof.
  intros Hk.
  assert (Hne : logits <> []).
  { intros ->. simpl in Hk. lia. }
  assert (Emin : Z.min k (Z.of_nat (length logits)) = k) by lia.
  assert (Hk' : (0 < Z.to_nat k <= length logits)%nat) by lia.
  destruct (kth_largest_spec logits Hk') as (Hin & Hge & Hgt).
  set (thr := kth_largest logits (Z.to_nat k)) in *.
  assert (Hout : top_k_step logits k filter_value =
                 map (fun v => if Logit.ltb v thr then filter_value else v)
                     logits).
  { rewrite top_k_step_pos by (assumption || lia). now rewrite Emin. }
  exists (top_k_step logits k filter_value), thr.
  split; [unfold top_k_top_p_filtering; apply top_p_step_zero; lra|].
  split; [apply top_k_step_length|].
  repeat split; auto.
  - intros i v Hi. now rewrite Hout, nth_error_map, Hi.
  - rewrite Hout.
    pose proof (top_k_count thr filter_value logits). lia.
Qed.

Lemma top_k_survivors_witness :
  exists out thr,
    top_k_top_p_filtering Demo.expw
      [Fin 1; Fin 2; Fin 3; Fin 4; Fin (1 # 2)] 2 0 NegInf = Ok out /\
    length out = 5%nat /\
    In thr [Fin 1; Fin 2; Fin 3; Fin 4; Fin (1 # 2)] /\
    (Z.to_nat 2 <= countb (fun v => negb (Logit.ltb v thr))
                     [Fin 1; Fin 2; Fin 3; Fin 4; Fin (1 # 2)])%nat /\
    (countb (fun v => Logit.ltb thr v)
            [Fin 1; Fin 2; Fin 3; Fin 4; Fin (1 # 2)] < Z.to_nat 2)%nat /\
    (forall i v,
       nth_error [Fin 1; Fin 2; Fin 3; Fin 4; Fin (1 # 2)] i = Some v ->
       nth_error out i = Some (if Logit.ltb v thr then NegInf else v)) /\
    (Z.to_nat 2 <= countb (not_sentinel NegInf) out +
                   countb (fun v => Logit.eqb v NegInf)
                     [Fin 1; Fin 2; Fin 3; Fin 4; Fin (1 # 2)])%nat.
Proof.
  apply (@top_k_survivors Demo.expw
           [Fin 1; Fin 2; Fin 3; Fin 4; Fin (1 # 2)] 2 NegInf).
  simpl. lia.
Defined.




(** Seventeen equal logits and [top_p = 1/2] under the unstable sort: the
    cumulative probabilities are 1/17, 2/17, ... and the ninth is the first
    above 1/2, so the nucleus is the first nine entries of the sorted
    order, which the introsort makes the entries 8 to 16. *)
Example nucleus_of_seventeen_ties :
  snd (sort_unstable (repeat (Fin 0) 17)) =
  [8; 16; 15; 14; 13; 12; 11; 10; 9; 0; 7; 6; 5; 4; 3; 2; 1]%nat /\
  Torch.top_k_top_p_filtering sort_unstable (softmax Demo.expw) cumsum Qgtb
    (repeat (Fin 0) 17) 0 (1 # 2) NegInf
  = Ok (repeat NegInf 8 ++ repeat (Fin 0) 9).
Proof. split; vm_compute; reflexivity. Qed.

(** A vector that holds nothing but the sentinel has no survivor: the
    softmax is undefined, no comparison with [top_p] succeeds, and the
    vector comes back as it was. *)
Lemma nucleus_empty_on_all_sentinel :
  top_k_top_p_filtering Demo.expw [NegInf; NegInf] 0 (1 # 2) NegInf
  = Ok [NegInf; NegInf] /\
  ~ exists i, survives [NegInf; NegInf] i.
Proof.
  split; [reflexivity|].
  intros (i & q & H). destruct i as [|[|i]]; simpl in H; try discriminate.
  destruct i; discriminate.
Qed.

(** C4 (the code departs from it).  With [n_ctx = 1] the slice
    [generated[0][-(n_ctx - 1):]] is [generated[0][0:]], the whole
    sequence: the model is called on two tokens although [n_ctx - 1 = 0]. *)
Theorem window_overflow_at_n_ctx_1 :
  exists out s',
    generate Demo.expw (Demo.model 12) Demo.multinomial 0%nat
             [10; 11]%nat 1 1 1 2 0 1 Demo.s0 = Ok (out, s') /\
    queries s' = [[10; 11]%nat] /\
    ~ Forall (fun w => (Z.of_nat (length w) <= 1 - 1)%Z) (queries s').
Proof.
  eexists. eexists. split; [vm_compute; reflexivity|].
  split; [reflexivity|].
  simpl. intros H. inversion H as [|? ? Hw _]; subst. simpl in Hw. lia.
Qed.

(** C5.  The token sampled at a step is never the reserved unknown id:
    the id does not occur in the generated part of the returned
    sequence. *)
Theorem unknown_never_sampled
  (expw : Q -> Q) (model : list token -> list Q) (rng : Type)
  (multinomial : list Q -> rng -> option (nat * rng)) (unk : token)
  (context : list token) (length_ : Z) (n_ctx : Z) (temperature : Q)
  (top_k : Z) (top_p : Q) (repitition_penalty : Q) (s : state rng) out s' :
  (forall probs g i g',
      multinomial probs g = Some (i, g') ->
      exists p, nth_error probs i = Some p /\ 0 < p) ->
  generate expw model multinomial unk context length_ n_ctx temperature
           top_k top_p repitition_penalty s = Ok (out, s') ->
  ~ In unk (skipn (length context) out).
Proof.
  intros Hsup H. unfold generate in H.
  destruct (@loop_not_unk expw model rng multinomial unk n_ctx temperature
              top_k top_p repitition_penalty Hsup _ _ _ _ _ H)
    as (suf & -> & _ & Hn).
  rewrite skipn_app, Nat.sub_diag, skipn_all. exact Hn.
Qed.

Lemma unknown_never_sampled_witness :
  ~ In 11%nat (skipn (length [10; 11]%nat) [10; 11; 9; 9; 9]%nat).
Proof.
  apply (@unknown_never_sampled Demo.expw (Demo.model 12) unit
           Demo.multinomial 11%nat [10; 11]%nat 3 4 1 2 0 1 Demo.s0
           [10; 11; 9; 9; 9]%nat
           (mkState tt [[10; 11]; [10; 11; 9]; [11; 9; 9]]%nat)).
  - exact DemoFacts.demo_multinomial_support.
  - vm_compute. reflexivity.
Defined.



(** C7.  With [top_k = 0] and [top_p = 0.0] the filter returns its input
    unchanged, element for element, whatever the vector and the sentinel. *)
Theorem filtering_noop (expw : Q -> Q) (logits : list logit) (filter_value : logit) :
  top_k_top_p_filtering expw logits 0 0 filter_value = Ok logits.
Proof.
  unfold top_k_top_p_filtering.
  rewrite top_k_step_nonpos by lia.
  apply top_p_step_zero. lra.
Qed.

(** C8 as stated fails on a tie at the edge of the nucleus, because the
    two sorts run on different vectors and an unstable sort may order the
    tied entries differently.  The vector holds 0 at its two ends and 15
    distinct lower values between them; with [top_p = 1/4] each nucleus is
    the entry sorted first.  The introsort of the input puts entry 0
    first; [top_k = 2] turns the lower values into [-inf], and the
    introsort of that vector puts entry 16 first.  So entry 16 survives
    the composed filter and not top-p alone. *)
Lemma top_k_then_top_p_not_subset_on_tie :
  sort_contract sort_unstable /\
  exists composed alone,
    Torch.top_k_top_p_filtering sort_unstable (softmax Demo.expw) cumsum Qgtb
      [Fin 0; Fin (-11); Fin (-12); Fin (-13); Fin (-14); Fin (-15); Fin (-16);
       Fin (-17); Fin (-18); Fin (-19); Fin (-20); Fin (-21); Fin (-22);
       Fin (-23); Fin (-24); Fin (-25); Fin 0] 2 (1 # 4) NegInf = Ok composed /\
    Torch.top_k_top_p_filtering sort_unstable (softmax Demo.expw) cumsum Qgtb
      [Fin 0; Fin (-11); Fin (-12); Fin (-13); Fin (-14); Fin (-15); Fin (-16);
       Fin (-17); Fin (-18); Fin (-19); Fin (-20); Fin (-21); Fin (-22);
       Fin (-23); Fin (-24); Fin (-25); Fin 0] 0 (1 # 4) NegInf = Ok alone /\
    hd 0%nat (snd (sort_unstable
      [Fin 0; Fin (-11); Fin (-12); Fin (-13); Fin (-14); Fin (-15); Fin (-16);
       Fin (-17); Fin (-18); Fin (-19); Fin (-20); Fin (-21); Fin (-22);
       Fin (-23); Fin (-24); Fin (-25); Fin 0])) = 0%nat /\
    hd 0%nat (snd (sort_unstable (top_k_step
      [Fin 0; Fin (-11); Fin (-12); Fin (-13); Fin (-14); Fin (-15); Fin (-16);
       Fin (-17); Fin (-18); Fin (-19); Fin (-20); Fin (-21); Fin (-22);
       Fin (-23); Fin (-24); Fin (-25); Fin 0] 2 NegInf))) = 16%nat /\
    (forall i, survives composed i <-> i = 16%nat) /\
    (forall i, survives alone i <-> i = 0%nat).
Proof.
  split; [exact sort_unstable_contract|].
  exists (repeat NegInf 16 ++ [Fin 0]), (Fin 0 :: repeat NegInf 16).
  split; [vm_compute; reflexivity|]. split; [vm_compute; reflexivity|].
  split; [vm_compute; reflexivity|]. split; [vm_compute; reflexivity|]. split.
  - intros i. split.
    + intros (q & H).
      do 17 (destruct i as [|i]; [try discriminate; try reflexivity|]).
      simpl in H. destruct i; discriminate.
    + intros ->. exists 0. reflexivity.
  - intros i. split.
    + intros (q & H). destruct i as [|i]; [reflexivity|].
      do 16 (destruct i as [|i]; [discriminate|]).
      simpl in H. destruct i; discriminate.
    + intros ->. exists 0. reflexivity.
Qed.

(** C8, amended.  On a non-empty vector, for every [k] and [p], whatever
    order the sort gives to tied entries and however [softmax] and
    [cumsum] round: every entry that survives top-k followed by top-p is
    tied with an entry that survives top-p alone, and survives top-p alone
    itself when no other entry holds the same logit. *)
Theorem top_k_then_top_p_subset
  (sort : list logit -> list logit * list nat)
  (softmax : list logit -> list Q) (cumsum : list Q -> list Q)
  (gt : Q -> Q -> bool) (logits : list logit) (top_k : Z) (top_p : Q) :
  sort_contract sort ->
  library_contract softmax cumsum gt -> masking_contract softmax cumsum ->
  logits <> [] ->
  exists composed alone,
    Torch.top_k_top_p_filtering sort softmax cumsum gt logits top_k top_p NegInf
    = Ok composed /\
    Torch.top_k_top_p_filtering sort softmax cumsum gt logits 0 top_p NegInf
    = Ok alone /\
    (forall i, survives composed i ->
       exists i', tied logits i i' /\ survives alone i') /\
    (forall i, survives composed i ->
       (forall i', tied logits i i' -> i' = i) -> survives alone i).
Proof.
  intros Hs Hsh Hr Hne.
  assert (Hmain : exists composed alone,
    Torch.top_k_top_p_filtering sort softmax cumsum gt logits top_k top_p NegInf
    = Ok composed /\
    Torch.top_k_top_p_filtering sort softmax cumsum gt logits 0 top_p NegInf
    = Ok alone /\
    (forall i, survives composed i ->
       exists i', tied logits i i' /\ survives alone i')).
  2:{ destruct Hmain as (composed & alone & Hc & Ha & H).
      exists composed, alone. repeat split; auto.
      intros i Hi Hu. destruct (H i Hi) as (i' & Ht & Hsv).
      now rewrite <- (Hu i' Ht). }
  unfold Torch.top_k_top_p_filtering.
  rewrite (top_k_step_nonpos logits NegInf (Z.le_refl 0)).
  set (u := top_k_step logits top_k NegInf).
  assert (Hlu : length u = length logits) by apply top_k_step_length.
  assert (Hentry : forall i q, nth_error u i = Some (Fin q) ->
                               nth_error logits i = Some (Fin q)).
  { intros i q Hi.
    destruct (nth_error logits i) as [v|] eqn:Ev.
    - destruct (top_k_step_entry logits top_k NegInf i Ev) as [E|E];
        fold u in E; congruence.
    - apply nth_error_None in Ev.
      assert (nth_error u i = None) by (apply nth_error_None; lia).
      congruence. }
  assert (Hself : forall i q, nth_error logits i = Some (Fin q) ->
                              tied logits i i).
  { intros i q Hi. exists (Fin q), (Fin q). repeat split; auto.
    apply eqb_refl. }
  destruct (Qlt_le_dec 0 top_p) as [Hp|Hp].
  2:{ rewrite !torch_top_p_step_zero by assumption.
      exists u, logits. split; [reflexivity|]. split; [reflexivity|].
      intros i (q & Hq). apply Hentry in Hq. exists i. split; eauto.
      exists q. exact Hq. }
  assert (Hneu : u <> []).
  { intros E. rewrite E in Hlu. destruct logits; simpl in *; congruence. }
  destruct (@top_p_step_positions sort Hs softmax cumsum gt
              (softmax_length Hsh) (cumsum_length Hsh) u top_p NegInf Hp Hneu)
    as (composed & Hc & Hlc & Hcc).
  destruct (@top_p_step_positions sort Hs softmax cumsum gt
              (softmax_length Hsh) (cumsum_length Hsh) logits top_p NegInf
              Hp Hne)
    as (alone & Ha & Hla & Hac).
  exists composed, alone. split; [exact Hc|]. split; [exact Ha|].
  intros i (q & Hq).
  assert (Hi : (i < length u)%nat).
  { rewrite <- Hlc. apply nth_error_Some. congruence. }
  destruct (sort_position Hs u Hi) as (j & Hj).
  pose proof (Hcc j i Hj) as Ec. rewrite Hq in Ec.
  destruct (removed_at gt top_p (cumsum (softmax (fst (sort u)))) j) eqn:Erem;
    [discriminate|].
  symmetry in Ec.
  pose proof (Hentry i q Ec) as Hlog.
  pose proof (sort_value_at Hs u j Hj) as Evu. rewrite Ec in Evu.
  assert (Hjn : (j < length logits)%nat).
  { rewrite <- Hlu, <- (sort_snd_length Hs u).
    apply nth_error_Some. congruence. }
  destruct (nth_error (snd (sort logits)) j) as [i'|] eqn:Hj'.
  2:{ apply nth_error_None in Hj'. rewrite (sort_snd_length Hs) in Hj'. lia. }
  pose proof (sort_value_at Hs logits j Hj') as Evl.
  (* the sorted values of the two vectors *)
  set (vs := fst (sort logits)) in *.
  set (vs' := fst (sort u)) in *.
  assert (Hlv : length vs = length vs').
  { unfold vs, vs'. rewrite !(sort_fst_length Hs). lia. }
  assert (Hmask : masks vs vs' /\
                  forall a, nth_error vs j = Some a ->
                            Logit.eqb a (Fin q) = true).
  { destruct (Z.ltb_spec 0 top_k) as [Hk|Hk].
    2:{ assert (Evs : vs' = vs).
        { unfold vs, vs', u. rewrite top_k_step_nonpos by assumption.
          reflexivity. }
        rewrite Evs. split.
        - apply Forall2_nth_error; auto. intros k a b Hka Hkb. right.
          assert (a = b) by congruence. subst. apply eqb_refl.
        - intros a Hka. rewrite Evs in Evu.
          assert (a = Fin q) by congruence. subst. apply eqb_refl. }
    assert (Eu : u = map (fun v =>
                            if Logit.ltb v
                                 (kth_largest logits
                                    (Z.to_nat (Z.min top_k
                                                 (Z.of_nat (length logits)))))
                            then NegInf else v) logits)
      by (apply top_k_step_pos; assumption).
    set (thr := kth_largest logits _) in Eu.
    set (cut := fun v => if Logit.ltb v thr then NegInf else v) in Eu.
    assert (Hcut : forall k a b, nth_error vs k = Some a ->
                                 nth_error vs' k = Some b ->
                                 Logit.eqb (cut a) b = true).
    { intros k a b Hka Hkb.
      apply (@sorted_perm_tied (map cut vs) vs' k).
      - eapply StronglySorted_map; [|apply (sort_descending Hs logits)].
        intros x y. apply cut_desc.
      - apply (sort_descending Hs u).
      - etransitivity; [apply Permutation_map, (sort_perm Hs logits)|].
        fold cut. rewrite <- Eu. symmetry. apply (sort_perm Hs u).
      - now rewrite nth_error_map, Hka.
      - exact Hkb. }
    split.
    - apply Forall2_nth_error; auto. intros k a b Hka Hkb.
      pose proof (Hcut k a b Hka Hkb) as E. unfold cut in E.
      destruct (Logit.ltb a thr); [left; now apply eqb_NegInf_l|now right].
    - intros a Hka. pose proof (Hcut j a (Fin q) Hka Evu) as E.
      unfold cut in E. destruct (Logit.ltb a thr); [discriminate|exact E]. }
  destruct Hmask as [Hmask Hat].
  destruct (nth_error logits i') as [a|] eqn:Ea.
  2:{ apply nth_error_None in Ea.
      pose proof (sort_index_range Hs logits j Hj'). lia. }
  pose proof (Hat a Evl) as Etie.
  exists i'. split.
  - exists (Fin q), a. repeat split; auto. now apply eqb_sym.
  - destruct a as [|q']; [discriminate|].
    exists q'. rewrite (Hac j i' Hj'), Ea.
    replace (removed_at gt top_p (cumsum (softmax vs)) j) with false;
      [reflexivity|].
    symmetry. destruct j as [|j0]; [reflexivity|]. cbn [removed_at] in *.
    destruct (gt (nth j0 (cumsum (softmax vs)) 0) top_p) eqn:Egt;
      [|reflexivity].
    rewrite <- Erem. symmetry.
    apply (gt_monotone Hsh) with (c := nth j0 (cumsum (softmax vs)) 0);
      [|exact Egt].
    apply (cumsum_monotone Hr).
    + rewrite !(softmax_length Hsh). exact Hlv.
    + intros k Hk.
      destruct (nth_error vs' k) as [b|] eqn:Eb.
      2:{ apply nth_error_None in Eb.
          assert (S j0 < length vs')%nat
            by (apply nth_error_Some; rewrite Evu; discriminate).
          lia. }
      assert (Hd : desc b (Fin q)).
      { apply (@StronglySorted_nth _ desc vs' k (S j0)); auto.
        - apply (sort_descending Hs u).
        - lia. }
      unfold desc in Hd. destruct b as [|qb]; [discriminate|].
      apply (@softmax_masks softmax cumsum Hr vs vs' k qb Hmask Eb).
Qed.

Lemma top_k_then_top_p_subset_witness :
  exists composed alone,
    Torch.top_k_top_p_filtering sort_unstable (softmax Demo.expw) cumsum Qgtb
      [Fin 0; Fin (-11); Fin (-12); Fin (-13); Fin (-14); Fin (-15); Fin (-16);
       Fin (-17); Fin (-18); Fin (-19); Fin (-20); Fin (-21); Fin (-22);
       Fin (-23); Fin (-24); Fin (-25); Fin 0] 2 (1 # 4) NegInf = Ok composed /\
    Torch.top_k_top_p_filtering sort_unstable (softmax Demo.expw) cumsum Qgtb
      [Fin 0; Fin (-11); Fin (-12); Fin (-13); Fin (-14); Fin (-15); Fin (-16);
       Fin (-17); Fin (-18); Fin (-19); Fin (-20); Fin (-21); Fin (-22);
       Fin (-23); Fin (-24); Fin (-25); Fin 0] 0 (1 # 4) NegInf = Ok alone /\
    (forall i, survives composed i ->
       exists i',
         tied [Fin 0; Fin (-11); Fin (-12); Fin (-13); Fin (-14); Fin (-15); Fin (-16);
       Fin (-17); Fin (-18); Fin (-19); Fin (-20); Fin (-21); Fin (-22);
       Fin (-23); Fin (-24); Fin (-25); Fin 0] i i' /\
         survives alone i') /\
    (forall i, survives composed i ->
       (forall i',
          tied [Fin 0; Fin (-11); Fin (-12); Fin (-13); Fin (-14); Fin (-15); Fin (-16);
       Fin (-17); Fin (-18); Fin (-19); Fin (-20); Fin (-21); Fin (-22);
       Fin (-23); Fin (-24); Fin (-25); Fin 0] i i' ->
          i' = i) ->
       survives alone i).
Proof.
  apply (@top_k_then_top_p_subset sort_unstable (softmax Demo.expw) cumsum Qgtb
           [Fin 0; Fin (-11); Fin (-12); Fin (-13); Fin (-14); Fin (-15); Fin (-16);
       Fin (-17); Fin (-18); Fin (-19); Fin (-20); Fin (-21); Fin (-22);
       Fin (-23); Fin (-24); Fin (-25); Fin 0] 2 (1 # 4)).
  - exact sort_unstable_contract.
  - exact demo_library_contract.
  - exact demo_masking_contract.
  - discriminate.
Defined.

(** C9 as stated fails: [length = 0] is an invalid configuration, and
    [generate] returns the prefix. *)
Lemma generate_returns_on_invalid_length :
  invalid_config 0 1 1 0 2 /\
  generate Demo.expw (Demo.model 12) Demo.multinomial 0%nat
           [10; 11]%nat 0 4 1 2 0 1 Demo.s0 = Ok ([10; 11]%nat, Demo.s0).
Proof. split; [left; lia|reflexivity]. Qed.

(** C9, amended.  [generate] checks nothing: with [length <= 0] it
    returns the prefix unchanged and calls nothing, and a negative [top_k]
    or [top_p] acts as [0], the branch being skipped. *)
Theorem generate_no_validation
  (expw : Q -> Q) (model : list token -> list Q) (rng : Type)
  (multinomial : list Q -> rng -> option (nat * rng)) (unk : token)
  (context : list token) (length_ : Z) (n_ctx : Z) (temperature : Q)
  (top_k : Z) (top_p : Q) (repitition_penalty : Q) (s : state rng) :
  ((length_ <= 0)%Z ->
   generate expw model multinomial unk context length_ n_ctx temperature
            top_k top_p repitition_penalty s = Ok (context, s)) /\
  ((top_k < 0)%Z ->
   generate expw model multinomial unk context length_ n_ctx temperature
            top_k top_p repitition_penalty s =
   generate expw model multinomial unk context length_ n_ctx temperature
            0 top_p repitition_penalty s) /\
  (top_p < 0 ->
   generate expw model multinomial unk context length_ n_ctx temperature
            top_k top_p repitition_penalty s =
   generate expw model multinomial unk context length_ n_ctx temperature
            top_k 0 repitition_penalty s).
Proof.
  unfold generate. split; [|split]; intros H.
  - replace (Z.to_nat length_) with 0%nat by lia. reflexivity.
  - apply loop_filter_ext. intros l. now apply filtering_negative_top_k.
  - apply loop_filter_ext. intros l. now apply filtering_negative_top_p.
Qed.

Lemma generate_no_validation_witness :
  generate Demo.expw (Demo.model 12) Demo.multinomial 0%nat
           [10; 11]%nat (-3) 4 1 2 0 1 Demo.s0 = Ok ([10; 11]%nat, Demo.s0) /\
  generate Demo.expw (Demo.model 12) Demo.multinomial 0%nat
           [10; 11]%nat 3 4 1 (-1) 0 1 Demo.s0 =
  generate Demo.expw (Demo.model 12) Demo.multinomial 0%nat
           [10; 11]%nat 3 4 1 0 0 1 Demo.s0 /\
  generate Demo.expw (Demo.model 12) Demo.multinomial 0%nat
           [10; 11]%nat 3 4 1 2 (- (1 # 2)) 1 Demo.s0 =
  generate Demo.expw (Demo.model 12) Demo.multinomial 0%nat
           [10; 11]%nat 3 4 1 2 0 1 Demo.s0.
Proof.
  split; [|split].
  - apply (proj1 (@generate_no_validation Demo.expw (Demo.model 12) unit
                    Demo.multinomial 0%nat [10; 11]%nat (-3) 4 1 2 0 1
                    Demo.s0)).
    lia.
  - apply (proj1 (proj2 (@generate_no_validation Demo.expw (Demo.model 12) unit
                    Demo.multinomial 0%nat [10; 11]%nat 3 4 1 (-1) 0 1
                    Demo.s0))).
    lia.
  - apply (proj2 (proj2 (@generate_no_validation Demo.expw (Demo.model 12) unit
                    Demo.multinomial 0%nat [10; 11]%nat 3 4 1 2 (- (1 # 2)) 1
                    Demo.s0))).
    reflexivity.
Defined.

(** C10.  On a non-empty vector an entry that holds the maximum logit
    comes through the filter unchanged, for every [top_k] and [top_p]. *)
Theorem filtering_keeps_maximum
  (expw : Q -> Q) (logits : list logit) (top_k : Z) (top_p : Q) :
  logits <> [] ->
  exists out,
    top_k_top_p_filtering expw logits top_k top_p NegInf = Ok out /\
    exists i v,
      nth_error logits i = Some v /\
      (forall j u, nth_error logits j = Some u -> Logit.leb u v = true) /\
      nth_error out i = Some v.
Proof.
  intros Hne.
  destruct (max_entry_survives expw top_k top_p Hne)
    as (out & Ho & _ & i & v & Hi & Hmax & Hout).
  exists out. split; auto. exists i, v. repeat split; auto.
  intros j u Hj. unfold Logit.leb. now rewrite (Hmax j u Hj).
Qed.

Lemma filtering_keeps_maximum_witness :
  exists out,
    top_k_top_p_filtering Demo.expw [Fin 1; Fin 4; Fin 4; Fin 2] 3 (1 # 4) NegInf
    = Ok out /\
    exists i v,
      nth_error [Fin 1; Fin 4; Fin 4; Fin 2] i = Some v /\
      (forall j u, nth_error [Fin 1; Fin 4; Fin 4; Fin 2] j = Some u ->
                   Logit.leb u v = true) /\
      nth_error out i = Some v.
Proof.
  apply (@filtering_keeps_maximum Demo.expw [Fin 1; Fin 4; Fin 4; Fin 2] 3 (1 # 4)).
  discriminate.
Defined.

(** ** The scenarios of the specification *)

Example scenario_top_k_2 :
  top_k_top_p_filtering Demo.expw
    [Fin 1; Fin 2; Fin 3; Fin 4; Fin (1 # 2)] 2 0 NegInf
  = Ok [NegInf; NegInf; Fin 3; Fin 4; NegInf].
Proof. reflexivity. Qed.

Example scenario_noop :
  top_k_top_p_filtering Demo.expw
    [Fin 1; Fin 2; Fin 3; Fin 4; Fin (1 # 2)] 0 0 NegInf
  = Ok [Fin 1; Fin 2; Fin 3; Fin 4; Fin (1 # 2)].
Proof. reflexivity. Qed.

Example scenario_window :
  exists out s',
    generate Demo.expw (Demo.model 12) Demo.multinomial 0%nat
             [10; 11]%nat 3 4 1 2 0 1 Demo.s0 = Ok (out, s') /\
    length out = 5%nat /\
    Forall (fun w => (length w <= 3)%nat) (queries s').
Proof.
  eexists. eexists. split; [vm_compute; reflexivity|].
  split; [reflexivity|]. simpl. repeat constructor.
Qed.

(** * Further properties of the filter *)

(** X1.  Whenever the filter returns, the vector it returns has the
    length of its input and each entry is either the input entry or
    [filter_value]: the filter never moves, rescales or invents a value. *)
Theorem filtering_shape
  (expw : Q -> Q) (logits : list logit) (top_k : Z) (top_p : Q)
  (filter_value : logit) (out : list logit) :
  top_k_top_p_filtering expw logits top_k top_p filter_value = Ok out ->
  length out = length logits /\
  forall i v, nth_error logits i = Some v ->
    nth_error out i = Some v \/ nth_error out i = Some filter_value.
Proof.
  intros H. split.
  - eapply filtering_length; eauto.
  - intros i v Hi. eapply filtering_entry; eauto.
Qed.

Lemma filtering_shape_witness :
  length [Fin 1; Fin 2; Fin 3; NegInf] = length [Fin 1; Fin 2; Fin 3; Fin 0] /\
  forall i v, nth_error [Fin 1; Fin 2; Fin 3; Fin 0] i = Some v ->
    nth_error [Fin 1; Fin 2; Fin 3; NegInf] i = Some v \/
    nth_error [Fin 1; Fin 2; Fin 3; NegInf] i = Some NegInf.
Proof.
  apply (@filtering_shape Demo.expw [Fin 1; Fin 2; Fin 3; Fin 0] 3 (9 # 10)
           NegInf [Fin 1; Fin 2; Fin 3; NegInf]).
  vm_compute. reflexivity.
Defined.

(** X2.  The filter raises in one case only: an empty vector with
    [top_p > 0], where the assignment to position 0 of the shifted mask is
    out of bounds ([IndexError]).  On every other input it returns. *)
Theorem filtering_raises_iff
  (expw : Q -> Q) (logits : list logit) (top_k : Z) (top_p : Q)
  (filter_value : logit) :
  (top_k_top_p_filtering expw logits top_k top_p filter_value
   = Raise IndexError <-> logits = [] /\ 0 < top_p) /\
  (forall e, top_k_top_p_filtering expw logits top_k top_p filter_value
             = Raise e -> e = IndexError).
Proof.
  assert (Hcases : (logits = [] /\ 0 < top_p /\
                    top_k_top_p_filtering expw logits top_k top_p filter_value
                    = Raise IndexError) \/
                   ((logits <> [] \/ top_p <= 0) /\
                    exists out,
                      top_k_top_p_filtering expw logits top_k top_p
                                            filter_value = Ok out)).
  { unfold top_k_top_p_filtering.
    destruct (Qlt_le_dec 0 top_p) as [Hp|Hp].
    - destruct logits as [|v t].
      + left. repeat split; auto.
        assert (E : top_k_step [] top_k filter_value = []).
        { apply length_zero_iff_nil. apply top_k_step_length. }
        rewrite E. unfold top_p_step.
        now rewrite (proj2 (Qltb_true 0 top_p) Hp).
      + right. split; [left; discriminate|].
        assert (Hne : top_k_step (v :: t) top_k filter_value <> []).
        { intros E. apply (f_equal (@length _)) in E.
          rewrite top_k_step_length in E. discriminate. }
        destruct (top_p_step_keeps_max expw top_p filter_value Hne)
          as (out & Ho & _). eauto.
    - right. split; [now right|].
      rewrite top_p_step_zero by assumption. eauto. }
  split; [split|].
  - intros H. destruct Hcases as [(E & Hp & _)|(_ & out & Ho)]; auto.
    congruence.
  - intros (E & Hp). destruct Hcases as [(_ & _ & H)|([Hne|Hle] & _)]; auto.
    + congruence.
    + lra.
  - intros e H. destruct Hcases as [(_ & _ & H')|(_ & out & Ho)]; congruence.
Qed.

(** X3.  A [top_k] at or above the vocabulary size switches the top-k
    branch off: after the clamp the threshold is the smallest logit and no
    entry lies strictly below it. *)
Theorem top_k_beyond_vocab_noop
  (expw : Q -> Q) (logits : list logit) (top_k : Z) (top_p : Q)
  (filter_value : logit) :
  (Z.of_nat (length logits) <= top_k)%Z ->
  top_k_top_p_filtering expw logits top_k top_p filter_value =
  top_k_top_p_filtering expw logits 0 top_p filter_value.
Proof.
  intros Hk. unfold top_k_top_p_filtering. f_equal.
  rewrite (top_k_step_nonpos logits filter_value (Z.le_refl 0)).
  destruct logits as [|v0 t].
  { apply length_zero_iff_nil, top_k_step_length. }
  set (l := v0 :: t) in *.
  assert (Hne : l <> []) by discriminate.
  assert (Hpos : (0 < top_k)%Z) by (subst l; simpl length in Hk; lia).
  destruct (top_k_step_threshold filter_value Hpos Hne)
    as (thr & _ & Hge & _ & ->).
  replace (Z.to_nat (Z.min top_k (Z.of_nat (length l)))) with (length l)
    in Hge by lia.
  apply countb_full in Hge.
  apply map_id_on. eapply Forall_impl; [|exact Hge].
  intros v Hv. apply negb_true_iff in Hv. now rewrite Hv.
Qed.

Lemma top_k_beyond_vocab_noop_witness :
  top_k_top_p_filtering Demo.expw [Fin 1; NegInf; Fin 3] 30 (1 # 2) NegInf =
  top_k_top_p_filtering Demo.expw [Fin 1; NegInf; Fin 3] 0 (1 # 2) NegInf.
Proof.
  apply (@top_k_beyond_vocab_noop Demo.expw [Fin 1; NegInf; Fin 3] 30 (1 # 2)
           NegInf).
  simpl. lia.
Defined.

(** With [top_k = 1] the threshold is a maximum of the vector. *)
Lemma top_k_1_threshold (logits : list logit) (fv : logit) :
  logits <> [] ->
  exists thr,
    In thr logits /\
    (forall u, In u logits -> Logit.ltb thr u = false) /\
    top_k_step logits 1 fv =
    map (fun v => if Logit.ltb v thr then fv else v) logits.
Proof.
  intros Hne.
  destruct (@top_k_step_threshold logits 1 fv) as (thr & Hin & _ & Hgt & E);
    [lia|assumption|].
  assert (Hk1 : Z.to_nat (Z.min 1 (Z.of_nat (length logits))) = 1%nat).
  { destruct logits; [congruence|]. simpl length. lia. }
  rewrite Hk1 in Hgt.
  exists thr. repeat split; auto.
  intros u Hu. destruct (Logit.ltb thr u) eqn:Eu; auto.
  assert (1 <= countb (fun v => Logit.ltb thr v) logits)%nat; [|lia].
  unfold countb. apply in_split in Hu. destruct Hu as (l1 & l2 & ->).
  rewrite filter_app, length_app. simpl. rewrite Eu. simpl. lia.
Qed.

(** X4.  With [top_k = 1] (and no nucleus) the filter keeps exactly the
    entries that hold the maximum: an entry with some larger entry is
    replaced, an entry that no entry exceeds is unchanged. *)
Theorem top_k_1_keeps_maxima
  (expw : Q -> Q) (logits : list logit) (filter_value : logit) :
  logits <> [] ->
  exists out,
    top_k_top_p_filtering expw logits 1 0 filter_value = Ok out /\
    forall i v, nth_error logits i = Some v ->
      ((forall u, In u logits -> Logit.ltb v u = false) ->
       nth_error out i = Some v) /\
      ((exists u, In u logits /\ Logit.ltb v u = true) ->
       nth_error out i = Some filter_value).
Proof.
  intros Hne.
  destruct (top_k_1_threshold filter_value Hne) as (thr & Hin & Hmax & E).
  exists (top_k_step logits 1 filter_value).
  split; [unfold top_k_top_p_filtering; apply top_p_step_zero; lra|].
  intros i v Hi. rewrite E, nth_error_map, Hi. cbn [option_map]. split.
  - intros Hv. now rewrite (Hv thr Hin).
  - intros (u & Hu & Hlt).
    assert (Hvt : Logit.ltb v thr = true)
      by (eapply LogitFacts.ltb_geb_trans; eauto).
    now rewrite Hvt.
Qed.

Lemma top_k_1_keeps_maxima_witness :
  exists out,
    top_k_top_p_filtering Demo.expw [Fin 2; Fin 5; Fin 5; Fin 1] 1 0 NegInf
    = Ok out /\
    forall i v, nth_error [Fin 2; Fin 5; Fin 5; Fin 1] i = Some v ->
      ((forall u, In u [Fin 2; Fin 5; Fin 5; Fin 1] -> Logit.ltb v u = false) ->
       nth_error out i = Some v) /\
      ((exists u, In u [Fin 2; Fin 5; Fin 5; Fin 1] /\ Logit.ltb v u = true) ->
       nth_error out i = Some NegInf).
Proof.
  apply (@top_k_1_keeps_maxima Demo.expw [Fin 2; Fin 5; Fin 5; Fin 1] NegInf).
  discriminate.
Defined.

(** X5.  A smaller [top_k] never adds a candidate to the top-k branch:
    with the nucleus off ([top_p <= 0]) and [0 < k <= k'], every entry that
    survives the filter with [k] also survives it with [k']. *)
Theorem top_k_monotone
  (expw : Q -> Q) (logits : list logit) (k k' : Z) (top_p : Q) :
  (0 < k <= k')%Z -> top_p <= 0 ->
  exists out out',
    top_k_top_p_filtering expw logits k top_p NegInf = Ok out /\
    top_k_top_p_filtering expw logits k' top_p NegInf = Ok out' /\
    forall i, survives out i -> survives out' i.
Proof.
  intros [Hk Hkk] Hp. unfold top_k_top_p_filtering.
  rewrite !top_p_step_zero by assumption.
  eexists. eexists. split; [reflexivity|]. split; [reflexivity|].
  destruct logits as [|v0 t].
  { assert (E0 : forall z, top_k_step [] z NegInf = [])
      by (intros z; apply length_zero_iff_nil, top_k_step_length).
    now rewrite !E0. }
  set (logits := v0 :: t).
  assert (Hne : logits <> []) by discriminate.
  destruct (@top_k_step_threshold logits k NegInf Hk Hne)
    as (thr & _ & _ & Hgt & ->).
  destruct (@top_k_step_threshold logits k' NegInf) as (thr' & _ & Hge' & _ & ->);
    [lia|assumption|].
  assert (Hord : Logit.ltb thr thr' = false).
  { eapply threshold_order; [|exact Hgt]. lia. }
  intros i Hi. apply survives_map_cut in Hi. apply survives_map_cut.
  destruct Hi as (q & Hq & Hge). exists q. split; auto.
  eapply LogitFacts.geb_trans; eauto.
Qed.

Lemma top_k_monotone_witness :
  exists out out',
    top_k_top_p_filtering Demo.expw [Fin 1; Fin 3; Fin 4; Fin 2] 2 0 NegInf
    = Ok out /\
    top_k_top_p_filtering Demo.expw [Fin 1; Fin 3; Fin 4; Fin 2] 3 0 NegInf
    = Ok out' /\
    forall i, survives out i -> survives out' i.
Proof.
  apply (@top_k_monotone Demo.expw [Fin 1; Fin 3; Fin 4; Fin 2] 2 3 0).
  - lia.
  - discriminate.
Defined.

(** X6.  The top-k branch is idempotent: filtering its own output again
    with the same [top_k] (no nucleus, the default sentinel) changes
    nothing. *)
Theorem top_k_idempotent
  (expw : Q -> Q) (logits : list logit) (top_k : Z) (out : list logit) :
  top_k_top_p_filtering expw logits top_k 0 NegInf = Ok out ->
  top_k_top_p_filtering expw out top_k 0 NegInf = Ok out.
Proof.
  unfold top_k_top_p_filtering.
  rewrite !top_p_step_zero by lra. intros H. inversion H as [E]. clear H.
  f_equal.
  destruct (Z.ltb_spec 0 top_k) as [Hk|Hk];
    [|now rewrite !top_k_step_nonpos by assumption].
  destruct logits as [|v0 t].
  { assert (E0 : top_k_step [] top_k NegInf = [])
      by apply length_zero_iff_nil, top_k_step_length.
    now rewrite !E0. }
  set (l := v0 :: t) in *.
  assert (Hne : l <> []) by discriminate.
  destruct (@top_k_step_threshold l top_k NegInf Hk Hne)
    as (thr & _ & _ & Hgt & El).
  rewrite El.
  set (cut := fun v => if Logit.ltb v thr then NegInf else v) in *.
  assert (Hne' : map cut l <> []) by discriminate.
  destruct (@top_k_step_threshold (map cut l) top_k NegInf Hk Hne')
    as (thr' & _ & Hge' & _ & ->).
  rewrite length_map in Hge'.
  set (ke := Z.to_nat (Z.min top_k (Z.of_nat (length l)))) in *.
  apply map_id_on, Forall_forall. intros v Hv.
  apply in_map_iff in Hv. destruct Hv as (u & <- & Hu).
  remember (cut u) as w eqn:Ew. unfold cut in Ew.
  destruct (Logit.ltb u thr) eqn:Eu; subst w.
  - destruct (Logit.ltb NegInf thr'); reflexivity.
  - destruct (Logit.ltb u thr') eqn:Eu'; [|reflexivity].
    exfalso.
    assert (Hlt : Logit.ltb thr thr' = true)
      by (eapply LogitFacts.geb_ltb_trans; eauto).
    assert (countb (fun v => negb (Logit.ltb v thr')) (map cut l)
            <= countb (fun v => Logit.ltb thr v) l)%nat; [|lia].
    rewrite countb_map. apply countb_impl. intros w _ Hw.
    apply negb_true_iff in Hw. unfold cut in Hw.
    destruct (Logit.ltb w thr) eqn:Ew.
    + apply LogitFacts.ltb_fin_r in Hlt. destruct thr'; discriminate.
    + eapply LogitFacts.ltb_geb_trans; eauto.
Qed.

Lemma top_k_idempotent_witness :
  top_k_top_p_filtering Demo.expw [NegInf; Fin 3; Fin 3; NegInf] 2 0 NegInf
  = Ok [NegInf; Fin 3; Fin 3; NegInf].
Proof.
  apply (@top_k_idempotent Demo.expw [Fin 1; Fin 3; Fin 3; Fin 2] 2
           [NegInf; Fin 3; Fin 3; NegInf]).
  reflexivity.
Defined.

(** X8.  The nucleus grows with [top_p]: for [0 < p <= p'] and the same
    [top_k], every entry that survives the filter with [p] also survives
    it with [p'].  ([top_p = 0] is not the bottom of this order: it
    disables the branch and keeps every entry.) *)
Theorem top_p_monotone
  (expw : Q -> Q) (logits : list logit) (top_k : Z) (p p' : Q) :
  logits <> [] ->
  0 < p -> p <= p' ->
  exists out out',
    top_k_top_p_filtering expw logits top_k p NegInf = Ok out /\
    top_k_top_p_filtering expw logits top_k p' NegInf = Ok out' /\
    forall i, survives out i -> survives out' i.
Proof.
  intros Hne Hp Hpp. unfold top_k_top_p_filtering.
  set (y := top_k_step logits top_k NegInf).
  assert (Hy : y <> []).
  { intros E. apply (f_equal (@length _)) in E. unfold y in E.
    rewrite top_k_step_length in E. destruct logits; simpl in *; congruence. }
  rewrite !top_p_step_map by (assumption || lra).
  eexists. eexists. split; [reflexivity|]. split; [reflexivity|].
  intros i Hi. apply survives_kept in Hi. apply survives_kept.
  destruct Hi as (v & Hv & Hk). exists v. split; auto.
  unfold kept in *. apply andb_true_iff in Hk. destruct Hk as [Hf Hm].
  apply andb_true_iff. split; auto.
  apply negb_true_iff, Qltb_false. apply negb_true_iff, Qltb_false in Hm.
  lra.
Qed.

Lemma top_p_monotone_witness :
  exists out out',
    top_k_top_p_filtering Demo.expw [Fin 1; Fin 3; Fin 2] 0 (1 # 4) NegInf
    = Ok out /\
    top_k_top_p_filtering Demo.expw [Fin 1; Fin 3; Fin 2] 0 (3 # 4) NegInf
    = Ok out' /\
    forall i, survives out i -> survives out' i.
Proof.
  apply (@top_p_monotone Demo.expw [Fin 1; Fin 3; Fin 2] 0 (1 # 4) (3 # 4)).
  - discriminate.
  - reflexivity.
  - discriminate.
Defined.

(** * Further properties of the generation loop *)

Lemma apply_repetition_penalty_length (logits : list Q) (generated : list token)
      (r : Q) out :
  apply_repetition_penalty logits generated r = Ok out ->
  length out = length logits.
Proof.
  unfold apply_repetition_penalty.
  destruct (index_select logits generated); [|discriminate].
  inversion 1. apply index_put_length.
Qed.

Section Run.

Variable expw : Q -> Q.
Variable model : list token -> list Q.
Variable rng : Type.
Variable multinomial : list Q -> rng -> option (nat * rng).
Variable unk : token.
Variables (n_ctx : Z) (temperature : Q) (top_k : Z) (top_p : Q)
          (repitition_penalty : Q).

Let step_ := step expw model multinomial unk n_ctx temperature top_k top_p
                  repitition_penalty.
Let loop_ := loop expw model multinomial unk n_ctx temperature top_k top_p
                  repitition_penalty.

Lemma loop_S n generated s :
  loop_ (S n) generated s =
  match step_ generated s with
  | Ok (g, s1) => loop_ n g s1
  | Raise e => Raise e
  end.
Proof. reflexivity. Qed.

Lemma step_raises_penalty generated s e :
  apply_repetition_penalty
    (model (py_slice_from generated (- (n_ctx - 1))))
    generated repitition_penalty = Raise e ->
  step_ generated s = Raise e.
Proof.
  intros H. unfold step_, step, bind, call_model, lift. now rewrite H.
Qed.

Lemma step_raises_suppress generated s penalised e :
  apply_repetition_penalty
    (model (py_slice_from generated (- (n_ctx - 1))))
    generated repitition_penalty = Ok penalised ->
  suppress (map (fun v => v / temperature) penalised) unk = Raise e ->
  step_ generated s = Raise e.
Proof.
  intros H1 H2. unfold step_, step, bind, call_model, lift, ret.
  now rewrite H1, H2.
Qed.

Lemma step_raises_sample generated s penalised suppressed filtered :
  apply_repetition_penalty
    (model (py_slice_from generated (- (n_ctx - 1))))
    generated repitition_penalty = Ok penalised ->
  suppress (map (fun v => v / temperature) penalised) unk = Ok suppressed ->
  top_k_top_p_filtering expw suppressed top_k top_p NegInf = Ok filtered ->
  multinomial (softmax expw filtered) (gen s) = None ->
  step_ generated s = Raise RuntimeError.
Proof.
  intros H1 H2 H3 H4.
  unfold step_, step, bind, call_model, lift, ret, sample.
  rewrite H1, H2, H3. simpl. now rewrite H4.
Qed.

Lemma loop_plus n m generated s :
  loop_ (n + m) generated s =
  match loop_ n generated s with
  | Ok (g, s1) => loop_ m g s1
  | Raise e => Raise e
  end.
Proof.
  revert generated s. induction n as [|n IH]; intros g s.
  - reflexivity.
  - change (S n + m)%nat with (S (n + m)). rewrite !loop_S.
    destruct (step_ g s) as [[g1 s1]|e]; auto.
Qed.

Lemma loop_trace n generated s out s' :
  loop_ n generated s = Ok (out, s') ->
  queries s' =
  queries s ++
  map (fun i => py_slice_from (firstn (length generated + i) out)
                              (- (n_ctx - 1)))
      (seq 0 n).
Proof.
  revert generated s. induction n as [|n IH]; intros g s H.
  - apply ret_Ok in H. destruct H as [_ ->]. simpl. now rewrite app_nil_r.
  - rewrite loop_S in H.
    destruct (step_ g s) as [[g1 s1]|e] eqn:Hs; [|discriminate].
    apply step_inv in Hs.
    destruct Hs as (? & ? & ? & t & ? & _ & _ & _ & _ & -> & ->).
    pose proof (loop_appends _ _ _ _ _ _ _ _ _ _ _ _ H) as (suf & Eout & _).
    rewrite (IH _ _ H). cbn [queries]. rewrite <- app_assoc.
    f_equal. cbn [seq map app]. f_equal.
    + rewrite Nat.add_0_r, Eout, <- app_assoc, firstn_app, Nat.sub_diag,
        firstn_all. simpl. now rewrite app_nil_r.
    + rewrite <- seq_shift, map_map. apply map_ext. intros i.
      rewrite length_app. simpl. do 2 f_equal. lia.
Qed.

Hypothesis multinomial_support :
  forall probs g i g',
    multinomial probs g = Some (i, g') ->
    exists p, nth_error probs i = Some p /\ 0 < p.

Lemma positive_probability_survives (filtered : list logit) (t : nat) (p : Q) :
  nth_error (softmax expw filtered) t = Some p -> 0 < p ->
  survives filtered t.
Proof.
  rewrite nth_error_softmax. intros H Hp.
  destruct (nth_error filtered t) as [[|q]|] eqn:E; try discriminate.
  - simpl in H. inversion H; subst p. unfold Qdiv in Hp.
    rewrite Qmult_0_l in Hp. lra.
  - exists q. exact E.
Qed.

Lemma step_in_vocab vocab generated s generated' s' :
  (forall input_ids, length (model input_ids) = vocab) ->
  step_ generated s = Ok (generated', s') ->
  exists next_token,
    generated' = generated ++ [next_token] /\ (next_token < vocab)%nat.
Proof.
  intros Hv H. apply step_inv in H.
  destruct H as (pen & sup & filt & t & g & Hp & Hu & Hf & Hm & -> & _).
  exists t. split; auto.
  apply multinomial_support in Hm. destruct Hm as (p & Hp' & _).
  assert (Hlt : (t < length (softmax expw filt))%nat)
    by (apply nth_error_Some; congruence).
  unfold softmax in Hlt. rewrite !length_map in Hlt.
  apply filtering_length in Hf. apply suppress_unk in Hu.
  destruct Hu as [_ Hu]. rewrite length_map in Hu.
  apply apply_repetition_penalty_length in Hp.
  rewrite Hv in Hp. lia.
Qed.

Lemma loop_in_vocab vocab n generated s out s' :
  (forall input_ids, length (model input_ids) = vocab) ->
  loop_ n generated s = Ok (out, s') ->
  exists suffix,
    out = generated ++ suffix /\ Forall (fun t => (t < vocab)%nat) suffix.
Proof.
  intros Hv. revert generated s. induction n as [|n IH]; intros g s H.
  - apply ret_Ok in H. destruct H as [-> _]. exists [].
    rewrite app_nil_r. auto.
  - rewrite loop_S in H.
    destruct (step_ g s) as [[g1 s1]|e] eqn:Hs; [|discriminate].
    apply (step_in_vocab _ _ Hv) in Hs. destruct Hs as (t & -> & Ht).
    apply IH in H. destruct H as (suf & -> & Hsuf).
    exists (t :: suf). rewrite <- app_assoc. simpl. auto.
Qed.

End Run.

(** X10.  A prefix that holds an id outside the vocabulary makes the
    first iteration fail: the repetition penalty indexes the logits by
    every id of the sequence and raises [IndexError] before anything is
    sampled. *)
Theorem generate_raises_on_foreign_prefix
  (expw : Q -> Q) (model : list token -> list Q) (rng : Type)
  (multinomial : list Q -> rng -> option (nat * rng)) (unk : token)
  (context : list token) (length_ : Z) (n_ctx : Z) (temperature : Q)
  (top_k : Z) (top_p : Q) (repitition_penalty : Q) (s : state rng) :
  (0 < length_)%Z ->
  (exists t, In t context /\
             (length (model (py_slice_from context (- (n_ctx - 1)))) <= t)%nat) ->
  generate expw model multinomial unk context length_ n_ctx temperature
           top_k top_p repitition_penalty s = Raise IndexError.
Proof.
  intros HL Hbad. unfold generate.
  destruct (Z.to_nat length_) as [|n] eqn:E; [lia|].
  rewrite loop_S.
  rewrite (@step_raises_penalty expw model rng multinomial unk n_ctx
             temperature top_k top_p repitition_penalty context s IndexError);
    [reflexivity|].
  now apply apply_repetition_penalty_raises.
Qed.

Lemma generate_raises_on_foreign_prefix_witness :
  generate Demo.expw (Demo.model 12) Demo.multinomial 0%nat
           [10; 12]%nat 3 4 1 2 0 1 Demo.s0 = Raise IndexError.
Proof.
  apply (@generate_raises_on_foreign_prefix Demo.expw (Demo.model 12) unit
           Demo.multinomial 0%nat [10; 12]%nat 3 4 1 2 0 1 Demo.s0).
  - lia.
  - exists 12%nat. split; [simpl; auto|].
    rewrite DemoFacts.demo_model_vocab. lia.
Defined.

(** X11.  An unknown id outside the vocabulary (in particular any id,
    when the model returns an empty vector) makes the first iteration
    raise [IndexError] at the assignment of line 55, even though the
    prefix is in range. *)
Theorem generate_raises_on_foreign_unk
  (expw : Q -> Q) (model : list token -> list Q) (rng : Type)
  (multinomial : list Q -> rng -> option (nat * rng)) (unk : token)
  (context : list token) (length_ : Z) (n_ctx : Z) (temperature : Q)
  (top_k : Z) (top_p : Q) (repitition_penalty : Q) (s : state rng) :
  (0 < length_)%Z ->
  (forall t, In t context ->
             (t < length (model (py_slice_from context (- (n_ctx - 1)))))%nat) ->
  (length (model (py_slice_from context (- (n_ctx - 1)))) <= unk)%nat ->
  generate expw model multinomial unk context length_ n_ctx temperature
           top_k top_p repitition_penalty s = Raise IndexError.
Proof.
  intros HL Hctx Hunk. unfold generate.
  destruct (Z.to_nat length_) as [|n] eqn:E; [lia|].
  rewrite loop_S.
  destruct (@apply_repetition_penalty_ok _ context repitition_penalty Hctx)
    as (pen & Hpen & Hlen).
  rewrite (@step_raises_suppress expw model rng multinomial unk n_ctx
             temperature top_k top_p repitition_penalty context s pen
             IndexError Hpen); [reflexivity|].
  unfold suppress. rewrite length_map, Hlen.
  now rewrite (proj2 (Nat.ltb_ge unk _) Hunk).
Qed.

Lemma generate_raises_on_foreign_unk_witness :
  generate Demo.expw (Demo.model 12) Demo.multinomial 12%nat
           [10; 11]%nat 3 4 1 2 0 1 Demo.s0 = Raise IndexError.
Proof.
  apply (@generate_raises_on_foreign_unk Demo.expw (Demo.model 12) unit
           Demo.multinomial 12%nat [10; 11]%nat 3 4 1 2 0 1 Demo.s0).
  - lia.
  - intros t H. rewrite DemoFacts.demo_model_vocab. simpl in H. lia.
  - rewrite DemoFacts.demo_model_vocab. lia.
Defined.

(** X12.  Over a vocabulary of a single entry, the unknown id, nothing
    is left to sample: every logit is [-inf] after line 55, the softmax is
    undefined, and the first iteration raises [RuntimeError] at
    [multinomial]. *)
Theorem generate_raises_without_candidates
  (expw : Q -> Q) (model : list token -> list Q) (rng : Type)
  (multinomial : list Q -> rng -> option (nat * rng))
  (context : list token) (length_ : Z) (n_ctx : Z) (temperature : Q)
  (top_k : Z) (top_p : Q) (repitition_penalty : Q) (s : state rng) :
  (forall probs g i g',
      multinomial probs g = Some (i, g') ->
      exists p, nth_error probs i = Some p /\ 0 < p) ->
  (0 < length_)%Z ->
  length (model (py_slice_from context (- (n_ctx - 1)))) = 1%nat ->
  (forall t, In t context -> t = 0%nat) ->
  generate expw model multinomial 0%nat context length_ n_ctx temperature
           top_k top_p repitition_penalty s = Raise RuntimeError.
Proof.
  intros Hsup HL Hv Hctx. unfold generate.
  destruct (Z.to_nat length_) as [|n] eqn:E; [lia|].
  rewrite loop_S.
  set (raw := model (py_slice_from context (- (n_ctx - 1)))) in *.
  destruct (@apply_repetition_penalty_ok raw context repitition_penalty)
    as (pen & Hpen & Hlen).
  { intros t Ht. rewrite (Hctx t Ht), Hv. lia. }
  rewrite Hv in Hlen.
  assert (Hs : suppress (map (fun v => v / temperature) pen) 0%nat
               = Ok [NegInf]).
  { destruct pen as [|x [|y pen]]; try discriminate. reflexivity. }
  destruct (max_entry_survives expw top_k top_p (logits:=[NegInf]))
    as (filt & Hf & Hlf & _); [discriminate|].
  assert (Efilt : filt = [NegInf]).
  { destruct filt as [|a [|b filt]]; try discriminate.
    destruct (filtering_entry expw [NegInf] top_k top_p NegInf 0 Hf eq_refl)
      as [H|H]; simpl in H; congruence. }
  subst filt.
  rewrite (@step_raises_sample expw model rng multinomial 0%nat n_ctx
             temperature top_k top_p repitition_penalty context s pen
             [NegInf] [NegInf] Hpen Hs Hf); [reflexivity|].
  destruct (multinomial _ _) as [[i g]|] eqn:Em; auto.
  apply Hsup in Em. destruct Em as (p & Hp & Hpos).
  destruct i as [|i]; simpl in Hp.
  - inversion Hp; subst p. unfold Qdiv in Hpos. simpl in Hpos.
    rewrite Qmult_0_l in Hpos. lra.
  - destruct i; discriminate.
Qed.

Lemma generate_raises_without_candidates_witness :
  generate Demo.expw (Demo.model 1) Demo.multinomial 0%nat
           [0; 0]%nat 3 4 1 2 0 1 Demo.s0 = Raise RuntimeError.
Proof.
  apply (@generate_raises_without_candidates Demo.expw (Demo.model 1) unit
           Demo.multinomial [0; 0]%nat 3 4 1 2 0 1 Demo.s0).
  - exact DemoFacts.demo_multinomial_support.
  - lia.
  - apply DemoFacts.demo_model_vocab.
  - simpl. intros t H. lia.
Defined.

(** X13.  Every generated token is an index of the vocabulary: when the
    model returns [vocab] scores, each token [generate] appends is below
    [vocab], whatever the prefix holds. *)
Theorem generated_tokens_in_vocab
  (expw : Q -> Q) (model : list token -> list Q) (rng : Type)
  (multinomial : list Q -> rng -> option (nat * rng)) (unk : token)
  (vocab : nat) (context : list token) (length_ : Z) (n_ctx : Z)
  (temperature : Q) (top_k : Z) (top_p : Q) (repitition_penalty : Q)
  (s : state rng) out s' :
  (forall probs g i g',
      multinomial probs g = Some (i, g') ->
      exists p, nth_error probs i = Some p /\ 0 < p) ->
  (forall input_ids, length (model input_ids) = vocab) ->
  generate expw model multinomial unk context length_ n_ctx temperature
           top_k top_p repitition_penalty s = Ok (out, s') ->
  Forall (fun t => (t < vocab)%nat) (skipn (length context) out).
Proof.
  intros Hsup Hv H. unfold generate in H.
  destruct (@loop_in_vocab expw model rng multinomial unk n_ctx temperature
              top_k top_p repitition_penalty Hsup vocab _ _ _ _ _ Hv H)
    as (suf & -> & Hsuf).
  now rewrite skipn_app, Nat.sub_diag, skipn_all.
Qed.

Lemma generated_tokens_in_vocab_witness :
  Forall (fun t => (t < 12)%nat)
         (skipn (length [10; 11]%nat) [10; 11; 9; 9; 9]%nat).
Proof.
  apply (@generated_tokens_in_vocab Demo.expw (Demo.model 12) unit
           Demo.multinomial 11%nat 12%nat [10; 11]%nat 3 4 1 2 0 1 Demo.s0
           [10; 11; 9; 9; 9]%nat
           (mkState tt [[10; 11]; [10; 11; 9]; [11; 9; 9]]%nat)).
  - exact DemoFacts.demo_multinomial_support.
  - exact (DemoFacts.demo_model_vocab 12).
  - vm_compute. reflexivity.
Defined.

(** X14.  Sampling respects the filter: the token an iteration appends
    is one whose logit the filter left in place, never one it replaced by
    [-inf]. *)
Theorem sampled_token_survives_filter
  (expw : Q -> Q) (model : list token -> list Q) (rng : Type)
  (multinomial : list Q -> rng -> option (nat * rng)) (unk : token)
  (n_ctx : Z) (temperature : Q) (top_k : Z) (top_p : Q)
  (repitition_penalty : Q) (generated : list token) (s : state rng)
  generated' s' :
  (forall probs g i g',
      multinomial probs g = Some (i, g') ->
      exists p, nth_error probs i = Some p /\ 0 < p) ->
  step expw model multinomial unk n_ctx temperature top_k top_p
       repitition_penalty generated s = Ok (generated', s') ->
  exists penalised suppressed filtered next_token,
    apply_repetition_penalty
      (model (py_slice_from generated (- (n_ctx - 1))))
      generated repitition_penalty = Ok penalised /\
    suppress (map (fun v => v / temperature) penalised) unk = Ok suppressed /\
    top_k_top_p_filtering expw suppressed top_k top_p NegInf = Ok filtered /\
    generated' = generated ++ [next_token] /\
    survives filtered next_token /\
    nth_error filtered next_token = nth_error suppressed next_token.
Proof.
  intros Hsup H. apply step_inv in H.
  destruct H as (pen & sup & filt & t & g & Hp & Hu & Hf & Hm & -> & _).
  exists pen, sup, filt, t. repeat split; auto.
  - apply Hsup in Hm. destruct Hm as (p & Hp' & Hpos).
    eapply positive_probability_survives; eauto.
  - apply Hsup in Hm. destruct Hm as (p & Hp' & Hpos).
    destruct (positive_probability_survives expw filt t Hp' Hpos) as (q & Hq).
    destruct (nth_error sup t) as [v|] eqn:Ev.
    + destruct (filtering_entry expw sup top_k top_p NegInf t Hf Ev)
        as [E|E]; congruence.
    + apply nth_error_None in Ev. apply filtering_length in Hf.
      assert (nth_error filt t <> None) by congruence.
      apply nth_error_Some in H. lia.
Qed.

Lemma sampled_token_survives_filter_witness :
  exists penalised suppressed filtered next_token,
    apply_repetition_penalty
      (Demo.model 4 (py_slice_from [1; 3]%nat (- (4 - 1))))
      [1; 3]%nat 2 = Ok penalised /\
    suppress (map (fun v => v / 1) penalised) 3%nat = Ok suppressed /\
    top_k_top_p_filtering Demo.expw suppressed 2 0 NegInf = Ok filtered /\
    [1; 3; 1]%nat = [1; 3]%nat ++ [next_token] /\
    survives filtered next_token /\
    nth_error filtered next_token = nth_error suppressed next_token.
Proof.
  apply (@sampled_token_survives_filter Demo.expw (Demo.model 4) unit
           Demo.multinomial 3%nat 4 1 2 0 2 [1; 3]%nat Demo.s0
           [1; 3; 1]%nat (mkState tt [[1; 3]%nat])).
  - exact DemoFacts.demo_multinomial_support.
  - vm_compute. reflexivity.
Defined.

(** X15.  With [top_k = 1] and the nucleus off, decoding is greedy: the
    token an iteration appends holds a maximum of the logits as they
    stand after the penalty, the temperature and the suppression of the
    unknown id. *)
Theorem top_k_1_is_greedy
  (expw : Q -> Q) (model : list token -> list Q) (rng : Type)
  (multinomial : list Q -> rng -> option (nat * rng)) (unk : token)
  (n_ctx : Z) (temperature : Q) (top_p : Q)
  (repitition_penalty : Q) (generated : list token) (s : state rng)
  generated' s' :
  (forall probs g i g',
      multinomial probs g = Some (i, g') ->
      exists p, nth_error probs i = Some p /\ 0 < p) ->
  top_p <= 0 ->
  step expw model multinomial unk n_ctx temperature 1 top_p
       repitition_penalty generated s = Ok (generated', s') ->
  exists penalised suppressed next_token q,
    apply_repetition_penalty
      (model (py_slice_from generated (- (n_ctx - 1))))
      generated repitition_penalty = Ok penalised /\
    suppress (map (fun v => v / temperature) penalised) unk = Ok suppressed /\
    generated' = generated ++ [next_token] /\
    nth_error suppressed next_token = Some (Fin q) /\
    forall u, In u suppressed -> Logit.leb u (Fin q) = true.
Proof.
  intros Hsup Hp H. apply step_inv in H.
  destruct H as (pen & sup & filt & t & g & Hpen & Hu & Hf & Hm & -> & _).
  apply Hsup in Hm. destruct Hm as (p & Hp' & Hpos).
  pose proof (positive_probability_survives expw filt t Hp' Hpos) as Hsurv.
  unfold top_k_top_p_filtering in Hf.
  rewrite top_p_step_zero in Hf by assumption. inversion Hf as [Ef]. clear Hf.
  assert (Hne : sup <> []).
  { apply suppress_unk in Hu. destruct Hu as [Hu _].
    intros ->. destruct unk; discriminate. }
  destruct (top_k_1_threshold NegInf Hne) as (thr & _ & Hmax & E).
  rewrite <- Ef, E in Hsurv. apply survives_map_cut in Hsurv.
  destruct Hsurv as (q & Hq & Hge).
  exists pen, sup, t, q. repeat split; auto.
  intros u Hin. unfold Logit.leb. apply negb_true_iff.
  eapply LogitFacts.geb_trans; eauto.
Qed.

Lemma top_k_1_is_greedy_witness :
  exists penalised suppressed next_token q,
    apply_repetition_penalty
      (Demo.model 4 (py_slice_from [1; 3]%nat (- (4 - 1))))
      [1; 3]%nat 2 = Ok penalised /\
    suppress (map (fun v => v / 1) penalised) 3%nat = Ok suppressed /\
    [1; 3; 2]%nat = [1; 3]%nat ++ [next_token] /\
    nth_error suppressed next_token = Some (Fin q) /\
    forall u, In u suppressed -> Logit.leb u (Fin q) = true.
Proof.
  apply (@top_k_1_is_greedy Demo.expw (Demo.model 4) unit
           Demo.multinomial 3%nat 4 1 0 2 [1; 3]%nat Demo.s0
           [1; 3; 2]%nat (mkState tt [[1; 3]%nat])).
  - exact DemoFacts.demo_multinomial_support.
  - discriminate.
  - vm_compute. reflexivity.
Defined.

(** X16.  The model is asked once per generated token, in order, and the
    context of the call that produces token [i] is the window of line 49
    over the prefix and the [i] tokens generated before it. *)
Theorem generate_query_trace
  (expw : Q -> Q) (model : list token -> list Q) (rng : Type)
  (multinomial : list Q -> rng -> option (nat * rng)) (unk : token)
  (context : list token) (length_ : Z) (n_ctx : Z) (temperature : Q)
  (top_k : Z) (top_p : Q) (repitition_penalty : Q) (s : state rng) out s' :
  generate expw model multinomial unk context length_ n_ctx temperature
           top_k top_p repitition_penalty s = Ok (out, s') ->
  queries s' =
  queries s ++
  map (fun i => py_slice_from (firstn (length context + i) out)
                              (- (n_ctx - 1)))
      (seq 0 (Z.to_nat length_)).
Proof.
  intros H. unfold generate in H.
  exact (@loop_trace expw model rng multinomial unk n_ctx temperature top_k
           top_p repitition_penalty _ _ _ _ _ H).
Qed.

Lemma generate_query_trace_witness :
  [[10; 11]; [10; 11; 9]; [11; 9; 9]]%nat =
  [] ++
  map (fun i => py_slice_from (firstn (length [10; 11]%nat + i)
                                      [10; 11; 9; 9; 9]%nat)
                              (- (4 - 1)))
      (seq 0 (Z.to_nat 3)).
Proof.
  apply (@generate_query_trace Demo.expw (Demo.model 12) unit
           Demo.multinomial 11%nat [10; 11]%nat 3 4 1 2 0 1 Demo.s0
           [10; 11; 9; 9; 9]%nat
           (mkState tt [[10; 11]; [10; 11; 9]; [11; 9; 9]]%nat)).
  vm_compute. reflexivity.
Defined.

(** X17.  Generation can be resumed: producing [L1 + L2] tokens is
    producing [L1] tokens and then, from the sequence and the generator
    state reached, [L2] more; a failure in the first part is the failure
    of the whole. *)
Theorem generate_resumes
  (expw : Q -> Q) (model : list token -> list Q) (rng : Type)
  (multinomial : list Q -> rng -> option (nat * rng)) (unk : token)
  (context : list token) (L1 L2 : Z) (n_ctx : Z) (temperature : Q)
  (top_k : Z) (top_p : Q) (repitition_penalty : Q) (s : state rng) :
  (0 <= L1)%Z -> (0 <= L2)%Z ->
  generate expw model multinomial unk context (L1 + L2) n_ctx temperature
           top_k top_p repitition_penalty s =
  match generate expw model multinomial unk context L1 n_ctx temperature
                 top_k top_p repitition_penalty s with
  | Ok (generated, s1) =>
      generate expw model multinomial unk generated L2 n_ctx temperature
               top_k top_p repitition_penalty s1
  | Raise e => Raise e
  end.
Proof.
  intros H1 H2. unfold generate.
  rewrite Z2Nat.inj_add by assumption. apply loop_plus.
Qed.

Lemma generate_resumes_witness :
  generate Demo.expw (Demo.model 12) Demo.multinomial 11%nat
           [10; 11]%nat (1 + 2) 4 1 2 0 1 Demo.s0 =
  match generate Demo.expw (Demo.model 12) Demo.multinomial 11%nat
                 [10; 11]%nat 1 4 1 2 0 1 Demo.s0 with
  | Ok (generated, s1) =>
      generate Demo.expw (Demo.model 12) Demo.multinomial 11%nat
               generated 2 4 1 2 0 1 s1
  | Raise e => Raise e
  end.
Proof.
  apply (@generate_resumes Demo.expw (Demo.model 12) unit
           Demo.multinomial 11%nat [10; 11]%nat 1 2 4 1 2 0 1 Demo.s0).
  - lia.
  - lia.
Defined.

(** X18.  The window of line 49 by cases of [n_ctx].  For [n_ctx >= 2]
    it is the last [min(len, n_ctx - 1)] tokens of the sequence, so the
    most recent token is always in it.  For [n_ctx <= 0] the start of the
    slice is positive and the window is the sequence without its first
    [min(len, 1 - n_ctx)] tokens. *)
Theorem window_shape (generated : list token) (n_ctx : Z) :
  ((2 <= n_ctx)%Z ->
   exists front,
     generated = front ++ py_slice_from generated (- (n_ctx - 1)) /\
     length (py_slice_from generated (- (n_ctx - 1))) =
     Nat.min (length generated) (Z.to_nat (n_ctx - 1))) /\
  ((n_ctx <= 0)%Z ->
   exists front,
     generated = front ++ py_slice_from generated (- (n_ctx - 1)) /\
     length front = Nat.min (length generated) (Z.to_nat (1 - n_ctx))).
Proof.
  split; intros H.
  - destruct (window_suffix generated (- (n_ctx - 1))) as (front & E).
    exists front. split; auto. apply py_slice_from_length. lia.
  - unfold py_slice_from.
    destruct (Z.ltb_spec (- (n_ctx - 1)) 0); [lia|].
    exists (firstn (Z.to_nat (- (n_ctx - 1))) generated).
    split; [symmetry; apply firstn_skipn|].
    rewrite length_firstn. lia.
Qed.

Lemma window_shape_witness :
  (exists front,
     [10; 11; 12; 13]%nat = front ++ py_slice_from [10; 11; 12; 13]%nat (- (3 - 1)) /\
     length (py_slice_from [10; 11; 12; 13]%nat (- (3 - 1))) =
     Nat.min (length [10; 11; 12; 13]%nat) (Z.to_nat (3 - 1))) /\
  (exists front,
     [10; 11; 12; 13]%nat = front ++ py_slice_from [10; 11; 12; 13]%nat (- (-1 - 1)) /\
     length front = Nat.min (length [10; 11; 12; 13]%nat) (Z.to_nat (1 - -1))).
Proof.
  split.
  - apply (proj1 (window_shape [10; 11; 12; 13]%nat 3)). lia.
  - apply (proj2 (window_shape [10; 11; 12; 13]%nat (-1))). lia.
Defined.

(** * Properties of [main] *)

(** ** The printed text *)

Lemma has_double_hash_app (a b : str) :
  has_double_hash (a ++ b) = false ->
  has_double_hash a = false /\ has_double_hash b = false.
Proof.
  induction a as [|x a IH]; simpl; intros H; [auto|].
  apply orb_false_iff in H. destruct H as [H1 H2].
  destruct (IH H2) as [Ha Hb]. split; auto.
  rewrite Ha, orb_false_r.
  destruct a as [|y a]; [apply andb_false_r|exact H1].
Qed.

Lemma has_double_hash_complete (front back : str) :
  has_double_hash (front ++ [35; 35]%N ++ back) = true.
Proof.
  induction front as [|x front IH]; [reflexivity|].
  simpl. simpl in IH. rewrite IH. apply orb_true_r.
Qed.

Lemma lstrip_suffix (s : str) : exists front, s = front ++ lstrip s.
Proof.
  induction s as [|c t IH]; simpl.
  - exists []. reflexivity.
  - destruct (is_space c).
    + destruct IH as (front & E). exists (c :: front). simpl. congruence.
    + exists []. reflexivity.
Qed.

Lemma rstrip_prefix (s : str) : exists back, s = rstrip s ++ back.
Proof.
  unfold rstrip. destruct (lstrip_suffix (rev s)) as (front & E).
  exists (rev front). rewrite <- rev_app_distr, <- E. symmetry.
  apply rev_involutive.
Qed.

Lemma strip_infix (s : str) : exists front back, s = front ++ strip s ++ back.
Proof.
  unfold strip. destruct (lstrip_suffix s) as (front & E).
  destruct (rstrip_prefix (lstrip s)) as (back & E').
  exists front, back. now rewrite <- E'.
Qed.

(** The scan for ["##"] leaves no two [#] side by side. *)
Lemma replace_hashes_clean (s : str) :
  has_double_hash (replace_from [35; 35]%N [] 0 s) = false /\
  has_double_hash (replace_from [35; 35]%N [] 1 s) = false.
Proof.
  induction s as [|c t [IH0 IH1]]; [auto|]. split; [|exact IH0].
  cbn [replace_from].
  destruct (starts_with [35; 35]%N (c :: t)) eqn:E; [exact IH1|].
  cbn [has_double_hash]. rewrite IH0, orb_false_r.
  destruct (N.eqb_spec c 35) as [->|Hc]; [|reflexivity].
  (* [c] is [#] and opens no occurrence: what follows starts with
     something else and is copied *)
  destruct t as [|d t']; [reflexivity|].
  simpl in E. destruct (N.eqb_spec 35 d) as [<-|Hd]; [discriminate|].
  cbn [replace_from starts_with].
  destruct (N.eqb_spec 35 d); [congruence|].
  simpl. destruct (N.eqb_spec d 35); [congruence|reflexivity].
Qed.

(** X19.  The text printed for a sample never holds ["##"], whatever the
    tokens are: the single left-to-right pass of [replace] leaves no two
    [#] side by side, and [strip] only shortens the ends. *)
Theorem render_has_no_double_hash (text : list str) :
  ~ contains (lit "##") (render text).
Proof.
  intros (front & back & E).
  assert (H : has_double_hash (render text) = false).
  { unfold render.
    destruct (strip_infix (str_replace (lit "##") []
                             (concat (map replace_special text))))
      as (f & b & Es).
    pose proof (proj1 (replace_hashes_clean
                         (concat (map replace_special text)))) as Hc.
    change (replace_from [35; 35]%N [] 0 (concat (map replace_special text)))
      with (str_replace (lit "##") [] (concat (map replace_special text)))
      in Hc.
    rewrite Es in Hc.
    apply has_double_hash_app in Hc. destruct Hc as [_ Hc].
    apply has_double_hash_app in Hc. tauto. }
  rewrite E in H. change (lit "##") with [35; 35]%N in H.
  rewrite has_double_hash_complete in H. discriminate.
Qed.

Lemma lstrip_head (s : str) (c : N) (rest : str) :
  lstrip s = c :: rest -> is_space c = false.
Proof.
  induction s as [|x t IH]; simpl; [discriminate|].
  destruct (is_space x) eqn:E; auto.
  inversion 1; subst. exact E.
Qed.

Lemma lstrip_last (s : str) (front : str) (c : N) :
  lstrip s = front ++ [c] -> exists front', s = front' ++ [c].
Proof.
  intros H. destruct (lstrip_suffix s) as (pre & E).
  exists (pre ++ front). rewrite <- app_assoc, <- H. exact E.
Qed.

(** X20.  The text printed for a sample neither begins nor ends with a
    whitespace character. *)
Theorem render_is_stripped (text : list str) :
  (forall c rest, render text = c :: rest -> is_space c = false) /\
  (forall front c, render text = front ++ [c] -> is_space c = false).
Proof.
  unfold render, strip, rstrip.
  set (u := lstrip (str_replace (lit "##") []
                      (concat (map replace_special text)))).
  split.
  - intros c rest H.
    assert (Hr : lstrip (rev u) = rev rest ++ [c]).
    { rewrite <- (rev_involutive (lstrip (rev u))), H. reflexivity. }
    apply lstrip_last in Hr. destruct Hr as (front' & Hr).
    assert (Hu : u = c :: rev front').
    { rewrite <- (rev_involutive u), Hr, rev_app_distr. reflexivity. }
    unfold u in Hu. eapply lstrip_head; eauto.
  - intros front c H.
    assert (Hr : lstrip (rev u) = c :: rev front).
    { rewrite <- (rev_involutive (lstrip (rev u))), H, rev_app_distr.
      reflexivity. }
    eapply lstrip_head; eauto.
Qed.

(** ** The sampling loop *)

Section MainFacts.

Variable expw : Q -> Q.
Variable model : list token -> list Q.
Variable rng : Type.
Variable multinomial : list Q -> rng -> option (nat * rng).
Variable unk : token.
Variable n_ctx : Z.
Variable encode : str -> list token.
Variable convert_ids_to_tokens : list token -> list str.

Let samples_ := samples expw model multinomial unk n_ctx convert_ids_to_tokens.
Let passes_ := passes expw model multinomial unk n_ctx encode
                      convert_ids_to_tokens.

(** A sample text: the rendering of a sequence that begins with the
    encoded prefix and has [length_] more tokens. *)
Let sample_of (context_tokens : list token) (length_ : Z) (t : str) : Prop :=
  exists out,
    t = render (convert_ids_to_tokens out) /\
    length out = (length context_tokens + Z.to_nat length_)%nat /\
    firstn (length context_tokens) out = context_tokens.

Lemma samples_spec n length_ a context_tokens generated w generated' w' :
  samples_ n length_ a context_tokens generated w = Ok (generated', w') ->
  generated' = (generated + Z.of_nat n)%Z /\
  exists texts,
    length texts = n /\
    stdout w' = stdout w ++ numbered generated texts /\
    Forall (sample_of context_tokens length_) texts /\
    length (queries (dec w')) =
    (length (queries (dec w)) + n * Z.to_nat length_)%nat.
Proof.
  revert generated w. induction n as [|n IH]; intros g w H.
  - inversion H; subst. split; [lia|]. exists [].
    rewrite app_nil_r. repeat split; auto.
  - cbn [samples_ samples] in H.
    destruct (generate _ _ _ _ _ _ _ _ _ _ _ _) as [[out d]|e] eqn:Hg;
      [|discriminate].
    apply IH in H. destruct H as (-> & texts & Hl & Hs & Hf & Hq).
    cbn [stdout dec] in Hs, Hq.
    pose proof (generate_appends _ _ _ _ _ _ _ _ _ _ _ _ Hg) as (Ho1 & Ho2 & Ho3).
    split; [lia|].
    exists (render (convert_ids_to_tokens out) :: texts).
    split; [simpl; lia|]. split; [|split].
    + rewrite Hs, <- app_assoc. reflexivity.
    + constructor; auto. exists out. auto.
    + rewrite Hq, Ho3. lia.
Qed.

Lemma passes_negative fuel length_ a w :
  (arg_nsamples a < 0)%Z ->
  passes_ fuel length_ a w =
  Running (mkWorld (dec w) (stdout w ++ repeat (str_times 61 80) fuel)).
Proof.
  intros Hn. revert w. induction fuel as [|fuel IH]; intros w.
  - simpl. rewrite app_nil_r. destruct w; reflexivity.
  - cbn [passes_ passes].
    replace (Z.to_nat (arg_nsamples a)) with 0%nat by lia.
    cbn [samples].
    destruct (Z.eqb_spec 0 (arg_nsamples a)) as [E|_]; [lia|].
    fold passes_. rewrite IH. cbn [dec stdout].
    rewrite <- app_assoc. reflexivity.
Qed.

Lemma passes_nonnegative fuel length_ a w :
  (0 <= arg_nsamples a)%Z ->
  passes_ (S fuel) length_ a w =
  match samples_ (Z.to_nat (arg_nsamples a)) length_ a
                 (encode (arg_prefix a)) 0 w with
  | Ok (_, w1) => Returned (mkWorld (dec w1) (stdout w1 ++ [str_times 61 80]))
  | Raise e => Raised e
  end.
Proof.
  intros Hn. cbn [passes_ passes]. fold samples_.
  destruct (samples_ _ _ _ _ _ _) as [[g w1]|e] eqn:Hs; auto.
  apply samples_spec in Hs. destruct Hs as (-> & _).
  now rewrite (proj2 (Z.eqb_eq _ _)) by lia.
Qed.

Hypothesis expw_pos : forall q, 0 < expw q.
Variable vocab : nat.
Hypothesis model_vocab : forall input_ids, length (model input_ids) = vocab.
Hypothesis unk_vocab : (unk < vocab)%nat.
Hypothesis vocab_other : (2 <= vocab)%nat.
Hypothesis multinomial_support :
  forall probs g i g',
    multinomial probs g = Some (i, g') ->
    exists p, nth_error probs i = Some p /\ 0 < p.
Hypothesis multinomial_total :
  forall probs g,
    (exists i p, nth_error probs i = Some p /\ 0 < p) ->
    exists i g', multinomial probs g = Some (i, g').


End MainFacts.

(** X21.  With a negative [nsamples] the [while True] loop of [main]
    never ends: the [for] loop is empty, [generated] stays [0] and never
    equals [nsamples], so every pass prints the separator line and starts
    over, without ever calling the model. *)
Theorem main_never_returns_on_negative_nsamples
  (expw : Q -> Q) (model : list token -> list Q) (rng : Type)
  (multinomial : list Q -> rng -> option (nat * rng)) (unk : token)
  (n_ctx : Z) (encode : str -> list token)
  (convert_ids_to_tokens : list token -> list str)
  (a : arguments) (w : world rng) (fuel : nat) :
  (arg_nsamples a < 0)%Z ->
  main expw model multinomial unk n_ctx encode convert_ids_to_tokens fuel a w =
  Running (mkWorld (dec w) (stdout w ++ repeat (str_times 61 80) fuel)).
Proof. intros H. unfold main. now apply passes_negative. Qed.

Lemma main_never_returns_on_negative_nsamples_witness :
  main Demo.expw (Demo.model 12) Demo.multinomial 11%nat 4 DemoMain.encode
       DemoMain.convert_ids_to_tokens 5
       (mkArguments 2 (-1) 1 2 0 (lit "ab") 1) DemoMain.w0 =
  Running (mkWorld (dec DemoMain.w0)
             (stdout DemoMain.w0 ++ repeat (str_times 61 80) 5)).
Proof.
  apply (@main_never_returns_on_negative_nsamples Demo.expw (Demo.model 12)
           unit Demo.multinomial 11%nat 4 DemoMain.encode
           DemoMain.convert_ids_to_tokens
           (mkArguments 2 (-1) 1 2 0 (lit "ab") 1) DemoMain.w0 5).
  simpl. lia.
Defined.

(** X22.  With [nsamples >= 0] the [while True] loop makes a single
    pass: one pass already ends the run, by returning or by an exception
    of [generate], and more fuel changes nothing. *)
Theorem main_single_pass
  (expw : Q -> Q) (model : list token -> list Q) (rng : Type)
  (multinomial : list Q -> rng -> option (nat * rng)) (unk : token)
  (n_ctx : Z) (encode : str -> list token)
  (convert_ids_to_tokens : list token -> list str)
  (a : arguments) (w : world rng) (fuel : nat) :
  (0 <= arg_nsamples a)%Z ->
  main expw model multinomial unk n_ctx encode convert_ids_to_tokens
       (S fuel) a w =
  main expw model multinomial unk n_ctx encode convert_ids_to_tokens 1 a w /\
  forall w',
    main expw model multinomial unk n_ctx encode convert_ids_to_tokens 1 a w
    <> Running w'.
Proof.
  intros H. unfold main. rewrite !passes_nonnegative by assumption.
  split; [reflexivity|].
  intros w'.
  destruct (samples _ _ _ _ _ _ _ _ _ _ _ _) as [[g w1]|e]; discriminate.
Qed.

Lemma main_single_pass_witness :
  main Demo.expw (Demo.model 12) Demo.multinomial 11%nat 4 DemoMain.encode
       DemoMain.convert_ids_to_tokens (S 7) DemoMain.args DemoMain.w0 =
  main Demo.expw (Demo.model 12) Demo.multinomial 11%nat 4 DemoMain.encode
       DemoMain.convert_ids_to_tokens 1 DemoMain.args DemoMain.w0 /\
  forall w',
    main Demo.expw (Demo.model 12) Demo.multinomial 11%nat 4 DemoMain.encode
         DemoMain.convert_ids_to_tokens 1 DemoMain.args DemoMain.w0
    <> Running w'.
Proof.
  apply (@main_single_pass Demo.expw (Demo.model 12) unit Demo.multinomial
           11%nat 4 DemoMain.encode DemoMain.convert_ids_to_tokens
           DemoMain.args DemoMain.w0 7).
  simpl. lia.
Defined.


